(** * pdfcombine: the operation model, the page-range algebra and the
      command-line pipeline of [pdfcombine/cli.py], embedded in Rocq.

    Conventions of the embedding.
    - A Python [str] is a [string]; the model covers ASCII text.
    - A Python [int] is a [Z].
    - A Python [set] of ints is a [gset Z]; the order in which the
      interpreter iterates over a set is not fixed by the language and is
      an explicit parameter ([PySetOrder]).
    - A raised exception is a value of [exn]; a function that can raise
      returns a [res].
    - [main] returns the ordered list of its observable effects together
      with the way it ended. *)

From Stdlib Require Import ZArith Ascii String List.
From stdpp Require Import gmap strings list sorting.

Local Open Scope string_scope.
Local Open Scope list_scope.
Local Open Scope Z_scope.

(** ** Exceptions *)

Module Py.

(** The [ValueError]s the program can meet, by message. *)
Inductive value_error : Type :=
| InvalidRange (r : string)      (* ValueError(f"invalid range: {r}") *)
| FailedToParse (s : string)     (* ValueError(f"failed to parse page range: {s}") *)
| InvalidLiteral (tok : string)  (* raised by int(tok) *)
| BothOutputFlags.               (* ValueError("Both -o and --output specified. Aborting.") *)

Inductive exn : Type :=
| ValueError (e : value_error)
| IndexError (msg : string)
| NameError (name : string)
| LibraryError (msg : string).   (* anything raised inside the PDF library *)

Inductive res (A : Type) : Type :=
| Ok (a : A)
| Raise (e : exn).
Arguments Ok {A} a.
Arguments Raise {A} e.

#[global] Instance res_ret : MRet res := λ A a, Ok a.
#[global] Instance res_bind : MBind res := λ A B k m,
  match m with
  | Ok a => k a
  | Raise e => Raise e
  end.

Definition is_ok {A} (m : res A) : bool :=
  match m with Ok _ => true | Raise _ => false end.

#[global] Instance value_error_eq_dec : EqDecision value_error.
Proof. solve_decision. Defined.
#[global] Instance exn_eq_dec : EqDecision exn.
Proof. solve_decision. Defined.

End Py.
Import Py.

(** ** The string and integer primitives of the interpreter *)

Module Str.

(** [s.split(sep)] for a one-character separator: one more piece than
    there are separators, empty pieces kept. *)
Fixpoint split (sep : ascii) (s : string) : list string :=
  match s with
  | EmptyString => [EmptyString]
  | String c rest =>
      if Ascii.eqb c sep then EmptyString :: split sep rest
      else match split sep rest with
           | piece :: pieces => String c piece :: pieces
           | [] => [String c EmptyString]
           end
  end.

(** [s.startswith("-")]. *)
Definition startswith_dash (s : string) : bool :=
  match s with
  | String c _ => Ascii.eqb c "-"
  | EmptyString => false
  end.

(** ASCII white space as [int()] strips it: tab, newline, vertical tab,
    form feed, carriage return, blank. *)
Definition is_space (c : ascii) : bool :=
  let n := Z.of_nat (nat_of_ascii c) in
  ((9 <=? n) && (n <=? 13)) || (n =? 32).

Definition digit_of (c : ascii) : option Z :=
  let n := Z.of_nat (nat_of_ascii c) in
  if (48 <=? n) && (n <=? 57) then Some (n - 48) else None.

Fixpoint lstrip (l : list ascii) : list ascii :=
  match l with
  | c :: rest => if is_space c then lstrip rest else l
  | [] => []
  end.

Definition strip (l : list ascii) : list ascii :=
  rev (lstrip (rev (lstrip l))).

(** Decimal digits, a single underscore allowed between two digits. *)
Fixpoint digits (acc : Z) (after_digit : bool) (l : list ascii) : option Z :=
  match l with
  | [] => if after_digit then Some acc else None
  | c :: rest =>
      if Ascii.eqb c "_" then
        if after_digit then digits acc false rest else None
      else
        match digit_of c with
        | Some d => digits (10 * acc + d) true rest
        | None => None
        end
  end.

(** [int(s)] in base ten: surrounding white space, an optional sign,
    then the digits.  [None] stands for the [ValueError] it raises. *)
Definition int_opt (s : string) : option Z :=
  match strip (list_ascii_of_string s) with
  | c :: rest =>
      if Ascii.eqb c "+" then digits 0 false rest
      else if Ascii.eqb c "-" then Z.opp <$> digits 0 false rest
      else digits 0 false (c :: rest)
  | [] => None
  end.

Definition int (s : string) : res Z :=
  match int_opt s with
  | Some n => Ok n
  | None => Raise (ValueError (InvalidLiteral s))
  end.

End Str.

(** ** parse_page_range *)

(** [set(range(lo, hi))]. *)
Definition set_range (lo hi : Z) : gset Z := list_to_set (seqZ lo (hi - lo)).

(** One turn of the loop [for r in ranges]: the new value of [pages]. *)
Definition parse_page_range_step (s r : string) (pages : gset Z) : res (gset Z) :=
  match Str.split "-" r with
  | [only] =>
      n ← Str.int only ;
      Ok (pages ∪ {[ n ]})
  | [lo; hi] =>
      low ← Str.int lo ;
      high ← Str.int hi ;
      if high <? low then Raise (ValueError (InvalidRange r))
      else Ok (pages ∪ set_range low (high + 1))
  | _ => Raise (ValueError (FailedToParse s))
  end.

Fixpoint parse_page_range_loop (s : string) (ranges : list string)
    (pages : gset Z) : res (gset Z) :=
  match ranges with
  | [] => Ok pages
  | r :: rest =>
      pages' ← parse_page_range_step s r pages ;
      parse_page_range_loop s rest pages'
  end.

Definition parse_page_range (s : string) (zero_index : bool) : res (gset Z) :=
  pages ← parse_page_range_loop s (Str.split "," s) ∅ ;
  if zero_index then Ok (set_map (λ p, p - 1) pages) else Ok pages.

(** ** Operation *)

Record Operation : Type := mkOperation {
  filename : string;
  page_range : option string;
  keep : bool;
  angle : Z }.

(** [Operation(filename=f)]: the defaults of [__init__]. *)
Definition new_operation (f : string) : Operation :=
  {| filename := f; page_range := None; keep := true; angle := 0 |}.

Definition pages_to_keep (op : Operation) (N : Z) : res (gset Z) :=
  let all_pages := set_range 0 N in
  match page_range op with
  | None => Ok all_pages
  | Some s =>
      pages ← parse_page_range s true ;
      if keep op then Ok pages else Ok (all_pages ∖ pages)
  end.

(** ** parse_output_file *)

(** [args.index(x)], with the [-1] the [except ValueError] branch puts in
    its place. *)
Fixpoint index_from (x : string) (args : list string) (i : Z) : Z :=
  match args with
  | [] => -1
  | a :: rest => if String.eqb a x then i else index_from x rest (i + 1)
  end.

Definition index_or_minus1 (x : string) (args : list string) : Z :=
  index_from x args 0.

(** [args.pop(i)]: the element and the list without it; a negative index
    counts from the end. *)
Definition list_pop (args : list string) (i : Z) : res (string * list string) :=
  let n := Z.of_nat (length args) in
  if n =? 0 then Raise (IndexError "pop from empty list")
  else
    let j := if i <? 0 then i + n else i in
    match (if (0 <=? j) then args !! Z.to_nat j else None) with
    | Some x => Ok (x, delete (Z.to_nat j) args)
    | None => Raise (IndexError "pop index out of range")
    end.

(** The function mutates [args]; the model returns the list as the
    function leaves it next to the result. *)
Definition parse_output_file (args : list string) : res (string * list string) :=
  let idx_o := index_or_minus1 "-o" args in
  let idx_output := index_or_minus1 "--output" args in
  if (0 <? idx_o) && (0 <? idx_output) then Raise (ValueError BothOutputFlags)
  else
    let idx := Z.max idx_o idx_output in
    if idx =? -1 then Ok ("combined.pdf", args)
    else
      '(outfile, args1) ← list_pop args (idx + 1) ;
      '(_, args2) ← list_pop args1 idx ;
      Ok (outfile, args2).

(** ** What [main] runs against *)

(** Iteration over a [set]: every member once, in an order the language
    leaves to the interpreter. *)
Class PySetOrder : Type := {
  set_iter : gset Z → list Z;
  set_iter_perm : ∀ s, set_iter s ≡ₚ elements s }.

(** The PDF library: [PdfReader(path).pages], [reader.pages[i]] and
    [page.rotate(angle)]. *)
Class PdfLib : Type := {
  page : Type;
  PdfReader : string → res (list page);
  pages_getitem : list page → Z → res page;
  rotate : page → Z → res page }.

(** [os.path.exists] and [os.path.isfile]. *)
Class FileSystem : Type := {
  path_exists : string → bool;
  path_isfile : string → bool }.

(** ** Effects of main *)

Inductive message : Type :=
| MsgUsage                              (* print(USAGE) *)
| MsgException (e : value_error)        (* print(e) *)
| MsgOutputExists (outfile : string)    (* "Output file ... already exists. Aborting." *)
| MsgNoSuchFile (f : string)            (* "File ... does not exist. Aborting." *)
| MsgFailedArgument (tok : string)      (* "Error: failed to parse argument: ..." *)
| MsgError (e : value_error)            (* "error: ..." *)
| MsgSaved (outfile : string).          (* "Saved combined PDF to ..." *)

Inductive event (P : Type) : Type :=
| EvPrint (m : message)
| EvExists (path : string)              (* os.path.exists(path) *)
| EvIsFile (path : string)              (* os.path.isfile(path) *)
| EvRead (path : string)                (* PdfReader(path) *)
| EvWrite (path : string) (doc : list P). (* open(path, "wb"); writer.write(fp) *)
Arguments EvPrint {P} m.
Arguments EvExists {P} path.
Arguments EvIsFile {P} path.
Arguments EvRead {P} path.
Arguments EvWrite {P} path doc.

(** How [main] ends: it returns, or an exception leaves it. *)
Inductive exit : Type :=
| Returned
| Uncaught (e : exn).

Inductive step (A : Type) : Type :=
| Next (a : A)
| Stop (x : exit).
Arguments Next {A} a.
Arguments Stop {A} x.

(** A piece of [main]: the effects so far, and either a value to go on
    with or the end of [main]. *)
Definition eff (P A : Type) : Type := list (event P) * step A.

#[global] Instance eff_ret {P} : MRet (eff P) := λ A a, ([], Next a).
#[global] Instance eff_bind {P} : MBind (eff P) := λ A B k m,
  match m with
  | (t, Next a) => let '(t', r) := k a in (t ++ t', r)
  | (t, Stop x) => (t, Stop x)
  end.

Definition emit {P} (e : event P) : eff P unit := ([e], Next tt).
Definition stop {P A} (x : exit) : eff P A := ([], Stop x).

(** A call outside any [try]: an exception leaves [main]. *)
Definition call {P A} (r : res A) : eff P A :=
  match r with
  | Ok a => mret a
  | Raise e => stop (Uncaught e)
  end.

(** A call inside [try: ... except ValueError as e: print(..e..); return]. *)
Definition call_except_ValueError {P A} (r : res A)
    (msg : value_error → message) : eff P A :=
  match r with
  | Ok a => mret a
  | Raise (ValueError e) => _ ← emit (EvPrint (msg e)) ; stop Returned
  | Raise e => stop (Uncaught e)
  end.

(** Reading a name that nothing in the module binds. *)
Definition unbound_name {P} (x : string) : eff P string :=
  stop (Uncaught (NameError x)).

Definition finish {P} (m : eff P unit) : list (event P) * exit :=
  match m with
  | (t, Next _) => (t, Returned)
  | (t, Stop x) => (t, x)
  end.

(** ** main *)

Section Main.
Context {order : PySetOrder} {lib : PdfLib} {fs : FileSystem}.

Local Abbreviation M := (eff page).

Definition os_path_exists (path : string) : M bool :=
  _ ← emit (EvExists path) ; mret (path_exists path).

Definition os_path_isfile (path : string) : M bool :=
  _ ← emit (EvIsFile path) ; mret (path_isfile path).

(** The body of the inner [while] after the two [popleft]s. *)
Definition apply_flag (operation : Operation) (cmd value : string) : M Operation :=
  if String.eqb cmd "-k" || String.eqb cmd "--keep" then
    mret {| filename := filename operation; page_range := Some value;
            keep := true; angle := angle operation |}
  else if String.eqb cmd "-r" || String.eqb cmd "--remove" then
    mret {| filename := filename operation; page_range := Some value;
            keep := false; angle := angle operation |}
  else if String.eqb cmd "-a" || String.eqb cmd "--angle" then
    a ← call (Str.int value) ;
    mret {| filename := filename operation; page_range := page_range operation;
            keep := keep operation; angle := a |}
  else
    (* print(f"... {highlight(current)}"): [current] is assigned nowhere *)
    current ← unbound_name "current" ;
    _ ← emit (EvPrint (MsgFailedArgument current)) ;
    stop Returned.

(** The inner loop
    [while len(args_to_process) > 0 and args_to_process[0].startswith("-")];
    [after] is what [main] does once the loop is left, with the operation
    and the queue as the loop leaves them. *)
Fixpoint parse_flags {A} (after : Operation → list string → M A)
    (operation : Operation) (queue : list string) {struct queue} : M A :=
  match queue with
  | [] => after operation queue
  | cmd :: queue1 =>
      if Str.startswith_dash cmd then
        match queue1 with
        | [] => stop (Uncaught (IndexError "pop from an empty deque"))
        | value :: queue2 =>
            operation' ← apply_flag operation cmd value ;
            parse_flags after operation' queue2
        end
      else after operation queue
  end.

(** The outer loop [while len(args_to_process) > 0]. *)
Fixpoint parse_operations (operations : list Operation) (queue : list string)
    {struct queue} : M (list Operation) :=
  match queue with
  | [] => mret operations
  | last_file :: queue1 =>
      isfile ← os_path_isfile last_file ;
      if negb isfile then
        _ ← emit (EvPrint (MsgNoSuchFile last_file)) ; stop Returned
      else
        parse_flags
          (λ operation queue2, parse_operations (operations ++ [operation]) queue2)
          (new_operation last_file) queue1
  end.

(** The loop [for i in pages_to_keep] over the indices in the order the
    set yields them; [writer] is the list of pages added so far. *)
Fixpoint add_pages (reader : list page) (op : Operation) (indices : list Z)
    (writer : list page) : M (list page) :=
  match indices with
  | [] => mret writer
  | i :: rest =>
      p ← call (pages_getitem reader i) ;
      p' ← (if negb (angle op =? 0) then call (rotate p (angle op)) else mret p) ;
      add_pages reader op rest (writer ++ [p'])
  end.

(** One turn of [for op in operations]. *)
Definition combine_step (op : Operation) (writer : list page) : M (list page) :=
  _ ← emit (EvRead (filename op)) ;
  reader ← call (PdfReader (filename op)) ;
  pages ← call_except_ValueError
            (pages_to_keep op (Z.of_nat (length reader))) MsgError ;
  add_pages reader op (set_iter pages) writer.

Fixpoint combine (operations : list Operation) (writer : list page) : M (list page) :=
  match operations with
  | [] => mret writer
  | op :: rest =>
      writer' ← combine_step op writer ;
      combine rest writer'
  end.

Definition wants_help (args : list string) : bool :=
  (Z.of_nat (length args) =? 0)
  || bool_decide ("-h" ∈ args) || bool_decide ("--help" ∈ args).

(** [main], with [sys.argv[1:]] as its argument. *)
Definition main_body (argv : list string) : M unit :=
  if wants_help argv then emit (EvPrint MsgUsage)
  else
    '(outfile, args_to_process) ←
        call_except_ValueError (parse_output_file argv) MsgException ;
    outfile_exists ← os_path_exists outfile ;
    if (outfile_exists : bool) then emit (EvPrint (MsgOutputExists outfile))
    else
      operations ← parse_operations [] args_to_process ;
      writer ← combine operations [] ;
      _ ← emit (EvWrite outfile writer) ;
      emit (EvPrint (MsgSaved outfile)).

Definition main (argv : list string) : list (event page) * exit :=
  finish (main_body argv).

(** *** Notions used to state properties of [main] *)

(** The flags the inner loop knows. *)
Definition known_flags : list string :=
  ["-k"; "--keep"; "-r"; "--remove"; "-a"; "--angle"].

(** The sequence [for i in pages_to_keep] runs through. *)
Definition page_sequence (op : Operation) (N : Z) : res (list Z) :=
  pages ← pages_to_keep op N ; mret (set_iter pages).

(** What index [i] of [reader] puts into the writer for [op]. *)
Definition fetch (reader : list page) (op : Operation) (i : Z) : res page :=
  p ← pages_getitem reader i ;
  if negb (angle op =? 0) then rotate p (angle op) else mret p.

(** The files written in the course of a run, in order. *)
Definition writes (t : list (event page)) : list (string * list page) :=
  omap (λ e, match e with EvWrite path doc => Some (path, doc) | _ => None end) t.

(** An operation that fails in the pipeline: its range spec does not
    parse, or some index of its page set is out of the bounds of its
    document. *)
Definition op_fails (op : Operation) : Prop :=
  ∃ reader, PdfReader (filename op) = Ok reader
    ∧ ((∃ e, pages_to_keep op (Z.of_nat (length reader)) = Raise e)
       ∨ (∃ pages i e, pages_to_keep op (Z.of_nat (length reader)) = Ok pages
                       ∧ i ∈ pages ∧ pages_getitem reader i = Raise e)).

End Main.

(** ** The range grammar in the specification's words *)

(** What one comma-separated token contributes, before any re-indexing:
    a single integer [N] yields [N]; a pair [LOW-HIGH] yields every
    integer of the inclusive range from [LOW] to [HIGH]; anything else
    yields nothing. *)
Definition spec_token_yields (r : string) (v : Z) : Prop :=
  match Str.split "-" r with
  | [n] => Str.int_opt n = Some v
  | [lo; hi] =>
      ∃ LOW HIGH, Str.int_opt lo = Some LOW ∧ Str.int_opt hi = Some HIGH
                  ∧ LOW ≤ v ≤ HIGH
  | _ => False
  end.

(** A pair token whose upper end is below its lower end. *)
Definition spec_descending_pair (r : string) : Prop :=
  ∃ lo hi LOW HIGH, Str.split "-" r = [lo; hi]
    ∧ Str.int_opt lo = Some LOW ∧ Str.int_opt hi = Some HIGH ∧ HIGH < LOW.

(** A well-formed token: a single integer, or a pair that is not
    descending. *)
Definition spec_token_wellformed (r : string) : Prop :=
  ∃ v, spec_token_yields r v.

(** The error of a token that is not well-formed: for a piece that is
    not an integer (the single piece, or the first such end of a pair)
    the error of [int] naming that piece; for a pair with its upper end
    below its lower end the invalid-range error naming the token; for a
    token with more than one dash the failed-to-parse error naming the
    whole spec [s]. *)
Definition spec_token_error (s r : string) : value_error :=
  match Str.split "-" r with
  | [n] => InvalidLiteral n
  | [lo; hi] =>
      match Str.int_opt lo, Str.int_opt hi with
      | None, _ => InvalidLiteral lo
      | Some _, None => InvalidLiteral hi
      | Some _, Some _ => InvalidRange r
      end
  | _ => FailedToParse s
  end.

(** The index sequence of a run is in ascending numeric page order. *)
Definition ascending (l : list Z) : Prop := Sorted Z.lt l.

(** ** Sample collaborators, for running the model on concrete inputs *)

Module Sample.

(** Ascending iteration. *)
Definition ascending_order : PySetOrder :=
  {| set_iter := λ s, merge_sort Z.le (elements s);
     set_iter_perm := λ s, merge_sort_Permutation Z.le (elements s) |}.

(** CPython keeps a set of at most four members in a table of eight
    slots, a member [k] in slot [hash(k) & 7] when that slot is free, and
    iterates over the slots in order.  [hash(k)] is [k] for the small
    integers met here, except [hash(-1) = -2].  This is that order for
    such sets; members that share a slot are put in numeric order, and on
    a larger set, where CPython takes a larger table, it is simply one of
    the orders the language allows. *)
Definition py_hash (k : Z) : Z := if k =? -1 then -2 else k.
Definition slot (k : Z) : Z := Z.land (py_hash k) 7.
Definition slot_le (a b : Z) : Prop :=
  slot a < slot b ∨ (slot a = slot b ∧ a ≤ b).

#[global] Instance slot_le_dec : RelDecision slot_le.
Proof. intros a b. unfold slot_le. apply _. Defined.

Definition slot_order : PySetOrder :=
  {| set_iter := λ s, merge_sort slot_le (elements s);
     set_iter_perm := λ s, merge_sort_Permutation slot_le (elements s) |}.

(** [seq[i]] on a Python sequence. *)
Definition list_getitem {A} (l : list A) (i : Z) : res A :=
  let n := Z.of_nat (length l) in
  let j := if i <? 0 then i + n else i in
  match (if 0 <=? j then l !! Z.to_nat j else None) with
  | Some x => Ok x
  | None => Raise (IndexError "sequence index out of range")
  end.

(** A page is its one-based number in its file and its rotation. *)
Definition document (n : nat) : list (Z * Z) :=
  (λ k, (k, 0)) <$> seqZ 1 (Z.of_nat n).

(** A library over a table of files given by their page counts. *)
Definition pdf_lib (files : list (string * nat)) : PdfLib :=
  {| page := Z * Z;
     PdfReader := λ path,
       match list_find (λ f, f.1 = path) files with
       | Some (_, (_, n)) => Ok (document n)
       | None => Raise (LibraryError "cannot open")
       end;
     pages_getitem := list_getitem;
     rotate := λ p a, Ok (p.1, p.2 + a) |}.

(** A file system that holds exactly the files of the table. *)
Definition file_system (files : list (string * nat)) : FileSystem :=
  {| path_exists := λ path, bool_decide (path ∈ files.*1);
     path_isfile := λ path, bool_decide (path ∈ files.*1) |}.

Definition run (o : PySetOrder) (files : list (string * nat))
    (argv : list string) : list (event (Z * Z)) * exit :=
  @main o (pdf_lib files) (file_system files) argv.

Definition one_file : list (string * nat) := [("in.pdf", 9%nat)].
Definition two_files : list (string * nat) := [("a.pdf", 3%nat); ("b.pdf", 3%nat)].
Definition odd_files : list (string * nat) := [("-o", 1%nat); ("out.pdf", 2%nat)].

End Sample.

(** * Properties *)

(** Closed decidable facts, by evaluation. *)
Ltac by_compute := apply (bool_decide_unpack _); vm_compute; exact I.

(** ** Ranges *)

Lemma elem_of_set_range (lo hi x : Z) : x ∈ set_range lo hi ↔ lo ≤ x < hi.
Proof.
  unfold set_range. rewrite elem_of_list_to_set, elem_of_seqZ. lia.
Qed.

(** ** parse_page_range *)

Lemma bind_Ok {A B} (m : res A) (k : A → res B) (b : B) :
  m ≫= k = Ok b ↔ ∃ a, m = Ok a ∧ k a = Ok b.
Proof.
  destruct m as [a|e]; simpl; split.
  - intros H. exists a. auto.
  - intros (a' & Ha & Hk). congruence.
  - discriminate.
  - intros (a' & Ha & _). discriminate.
Qed.

Lemma int_Ok (tok : string) (n : Z) : Str.int tok = Ok n ↔ Str.int_opt tok = Some n.
Proof.
  unfold Str.int. destruct (Str.int_opt tok); split; congruence.
Qed.

(** A successful turn adds to [pages] what the token yields. *)
Lemma parse_page_range_step_Ok s r pages pages' :
  parse_page_range_step s r pages = Ok pages' →
  ∀ x, x ∈ pages' ↔ x ∈ pages ∨ spec_token_yields r x.
Proof.
  unfold parse_page_range_step, spec_token_yields.
  destruct (Str.split "-" r) as [|a [|b [|c l]]]; try discriminate.
  - intros (n & Hn%int_Ok & Hk)%bind_Ok x. injection Hk as <-. rewrite Hn.
    rewrite elem_of_union, elem_of_singleton.
    split; (intros [?|?]; [by left|right]); congruence.
  - intros (low & Hlo%int_Ok & (high & Hhi%int_Ok & Hk)%bind_Ok)%bind_Ok x.
    destruct (Z.ltb_spec high low) as [Hlt|Hge]; [discriminate|].
    injection Hk as <-. rewrite elem_of_union, elem_of_set_range.
    split.
    + intros [?|?]; [by left|right]. exists low, high. repeat split; auto; lia.
    + intros [?|(L & H & HL & HH & Hx)]; [by left|right].
      rewrite Hlo in HL. rewrite Hhi in HH. simplify_eq. lia.
Qed.

(** Whether a turn fails, and how, does not depend on the pages so far. *)
Lemma parse_page_range_step_Raise s r pages pages' e :
  parse_page_range_step s r pages = Raise e →
  parse_page_range_step s r pages' = Raise e.
Proof.
  unfold parse_page_range_step.
  destruct (Str.split "-" r) as [|a [|b [|c l]]]; try done.
  - destruct (Str.int a); simpl; [discriminate|done].
  - destruct (Str.int a); simpl; [|done].
    destruct (Str.int b); simpl; [|done].
    destruct (_ <? _); [done|discriminate].
Qed.

(** A descending pair makes its turn fail with the invalid-range error. *)
Lemma parse_page_range_step_descending s r pages :
  spec_descending_pair r →
  parse_page_range_step s r pages = Raise (ValueError (InvalidRange r)).
Proof.
  intros (lo & hi & LOW & HIGH & Hsplit & Hlo%int_Ok & Hhi%int_Ok & Hlt).
  unfold parse_page_range_step. rewrite Hsplit, Hlo. simpl. rewrite Hhi. simpl.
  destruct (Z.ltb_spec HIGH LOW); [done|lia].
Qed.

Lemma parse_page_range_loop_Ok s ranges pages pages' :
  parse_page_range_loop s ranges pages = Ok pages' →
  ∀ x, x ∈ pages' ↔ x ∈ pages ∨ ∃ r, r ∈ ranges ∧ spec_token_yields r x.
Proof.
  revert pages. induction ranges as [|r rest IH]; intros pages; simpl.
  - intros [= <-] x. split; [by left|].
    intros [?|(r & Hr%elem_of_nil & _)]; done.
  - intros (mid & Hstep & Hloop)%bind_Ok x.
    rewrite (IH _ Hloop), (parse_page_range_step_Ok _ _ _ _ Hstep).
    split.
    + intros [[?|?]|(r' & Hin & Hy)]; [by left|right..].
      * exists r. split; [left|done].
      * exists r'. split; [by right|done].
    + intros [?|(r' & [->|Hin]%elem_of_cons & Hy)].
      * by left; left.
      * by left; right.
      * right. by exists r'.
Qed.

(** The loop stops at the first token whose turn fails. *)
Lemma parse_page_range_loop_app s pre r post pages e :
  Forall (λ r', ∀ pgs, is_ok (parse_page_range_step s r' pgs) = true) pre →
  (∀ pgs, parse_page_range_step s r pgs = Raise e) →
  parse_page_range_loop s (pre ++ r :: post) pages = Raise e.
Proof.
  intros Hpre Hr. revert pages.
  induction Hpre as [|r' pre Hok _ IH]; intros pages; simpl.
  - by rewrite Hr.
  - specialize (Hok pages).
    destruct (parse_page_range_step s r' pages); [|discriminate]. simpl. apply IH.
Qed.

Lemma parse_page_range_loop_fails s ranges r pages :
  r ∈ ranges →
  (∀ pgs, is_ok (parse_page_range_step s r pgs) = false) →
  ∃ e, parse_page_range_loop s ranges pages = Raise e.
Proof.
  intros Hin Hr. revert pages.
  induction ranges as [|r' rest IH]; intros pages; [by apply elem_of_nil in Hin|].
  simpl. destruct (parse_page_range_step s r' pages) as [mid|e] eqn:Hstep; simpl.
  - apply elem_of_cons in Hin as [->|Hin]; [|by apply IH].
    specialize (Hr pages). by rewrite Hstep in Hr.
  - by exists e.
Qed.

Lemma parse_page_range_Ok s zero_index pages :
  parse_page_range s zero_index = Ok pages →
  ∀ x, x ∈ pages ↔
       ∃ r, r ∈ Str.split "," s
            ∧ spec_token_yields r (if zero_index then x + 1 else x).
Proof.
  unfold parse_page_range. intros (raw & Hloop & Hk)%bind_Ok x.
  pose proof (parse_page_range_loop_Ok _ _ _ _ Hloop) as Hraw.
  destruct zero_index; injection Hk as <-.
  - rewrite elem_of_map. setoid_rewrite Hraw. split.
    + intros (y & -> & [Hy|Hy]); [by apply elem_of_empty in Hy|].
      by replace (y - 1 + 1) with y by lia.
    + intros Hy. exists (x + 1). split; [lia|by right].
  - rewrite Hraw. split; [|by right].
    intros [Hy|Hy]; [by apply elem_of_empty in Hy|done].
Qed.

Lemma parse_page_range_step_wellformed s r pages :
  is_ok (parse_page_range_step s r pages) = true ↔ spec_token_wellformed r.
Proof.
  unfold spec_token_wellformed. split.
  - destruct (parse_page_range_step s r pages) as [pages'|e] eqn:Hstep; [|done].
    intros _. revert Hstep.
    unfold parse_page_range_step, spec_token_yields.
    destruct (Str.split "-" r) as [|a [|b [|c l]]]; try discriminate.
    + intros (n & Hn%int_Ok & _)%bind_Ok. by exists n.
    + intros (low & Hlo%int_Ok & (high & Hhi%int_Ok & Hk)%bind_Ok)%bind_Ok.
      destruct (Z.ltb_spec high low) as [Hlt|Hge]; [discriminate|].
      exists low, low, high. repeat split; auto; lia.
  - intros (v & Hv). revert Hv.
    unfold parse_page_range_step, spec_token_yields.
    destruct (Str.split "-" r) as [|a [|b [|c l]]]; try done.
    + intros Hv%int_Ok. by rewrite Hv.
    + intros (L & H & HL%int_Ok & HH%int_Ok & Hv). rewrite HL. simpl.
      rewrite HH. simpl. destruct (Z.ltb_spec H L); [lia|done].
Qed.

(** C7 (PageRangeParser): the range parser maps "1-2,4" to {0,1,3} in
    the default zero-indexed mode and to {1,2,4} in the one-indexed
    form; in general a value is in the result exactly when some
    comma-separated token yields it (a single integer itself, a pair its
    inclusive range), shifted down by one in zero-indexed mode.  The
    result is a set, so a value yielded twice is there once. *)
Theorem parse_page_range_unions_tokens :
  parse_page_range "1-2,4" true = Ok {[0; 1; 3]}
  ∧ parse_page_range "1-2,4" false = Ok {[1; 2; 4]}
  ∧ parse_page_range "2,1-2,2" false = Ok {[1; 2]}
  ∧ ∀ s zero_index pages,
      parse_page_range s zero_index = Ok pages →
      ∀ x, x ∈ pages ↔
           ∃ r, r ∈ Str.split "," s
                ∧ spec_token_yields r (if zero_index then x + 1 else x).
Proof.
  split; [vm_compute; reflexivity|].
  split; [vm_compute; reflexivity|].
  split; [vm_compute; reflexivity|].
  apply parse_page_range_Ok.
Qed.

Lemma parse_page_range_unions_tokens_witness :
  parse_page_range "4,1-2" true = Ok {[0; 1; 3]}
  ∧ ∀ x, x ∈ ({[0; 1; 3]} : gset Z) ↔
         ∃ r, r ∈ Str.split "," "4,1-2" ∧ spec_token_yields r (x + 1).
Proof.
  split; [vm_compute; reflexivity|].
  apply (proj2 (proj2 (proj2 parse_page_range_unions_tokens)) "4,1-2" true).
  vm_compute; reflexivity.
Defined.

(** C8, as the claim states it, fails: the spec "x,5-3" contains the
    descending pair "5-3", and the parser stops at the token "x" before
    it, with the error of [int], not with the invalid-range error. *)
Lemma descending_pair_after_malformed_token :
  "5-3" ∈ Str.split "," "x,5-3"
  ∧ spec_descending_pair "5-3"
  ∧ parse_page_range "x,5-3" true = Raise (ValueError (InvalidLiteral "x"))
  ∧ ¬ ∃ r, parse_page_range "x,5-3" true = Raise (ValueError (InvalidRange r)).
Proof.
  split; [by_compute|].
  split; [exists "5", "3", 5, 3; vm_compute; done|].
  split; [vm_compute; reflexivity|].
  intros (r & Hr). vm_compute in Hr. discriminate.
Qed.

Lemma parse_page_range_step_error s r pages e :
  parse_page_range_step s r pages = Raise e →
  e = ValueError (spec_token_error s r) ∧ ¬ spec_token_wellformed r.
Proof.
  intros Hstep. split.
  - revert Hstep. unfold parse_page_range_step, spec_token_error, Str.int.
    destruct (Str.split "-" r) as [|a [|b [|c l]]]; simpl.
    + by intros [= <-].
    + destruct (Str.int_opt a); simpl; [discriminate|]. by intros [= <-].
    + destruct (Str.int_opt a); simpl; [|by intros [= <-]].
      destruct (Str.int_opt b); simpl; [|by intros [= <-]].
      destruct (_ <? _); [|discriminate]. by intros [= <-].
    + by intros [= <-].
  - intros Hwf%(parse_page_range_step_wellformed s r pages).
    by rewrite Hstep in Hwf.
Qed.

(** The loop raises the error of the first token that is not
    well-formed. *)
Lemma parse_page_range_loop_first_failure s ranges pages e :
  parse_page_range_loop s ranges pages = Raise e →
  ∃ pre' r' post',
    ranges = pre' ++ r' :: post'
    ∧ Forall spec_token_wellformed pre'
    ∧ ¬ spec_token_wellformed r'
    ∧ e = ValueError (spec_token_error s r').
Proof.
  revert pages. induction ranges as [|r rest IH]; intros pages; simpl; [discriminate|].
  destruct (parse_page_range_step s r pages) as [mid|e'] eqn:Hstep; simpl.
  - intros (pre' & r' & post' & -> & Hpre & Hr' & ->)%IH.
    exists (r :: pre'), r', post'. split; [done|]. split; [|done].
    constructor; [|done]. apply (parse_page_range_step_wellformed s r pages).
    by rewrite Hstep.
  - intros [= <-]. apply parse_page_range_step_error in Hstep as [-> Hr].
    by exists [], r, rest.
Qed.

(** C8 (amended): for every range spec with a pair token LOW-HIGH,
    HIGH < LOW, among its comma-separated tokens, the range parser
    raises and never returns a set.  What it raises is the error of the
    first token that is not well-formed, a token at or before that pair:
    the invalid-range error naming the pair when every token before it
    is well-formed, and otherwise the error of the earlier token ([int]'s
    error for a piece that is not an integer, the failed-to-parse error
    for more than one dash, the invalid-range error for an earlier
    descending pair). *)
Theorem descending_pair_fails s zero_index pre r post :
  Str.split "," s = pre ++ r :: post →
  spec_descending_pair r →
  (∃ pre' r' post',
     Str.split "," s = pre' ++ r' :: post'
     ∧ Forall spec_token_wellformed pre'
     ∧ ¬ spec_token_wellformed r'
     ∧ (length pre' ≤ length pre)%nat
     ∧ parse_page_range s zero_index = Raise (ValueError (spec_token_error s r')))
  ∧ (Forall spec_token_wellformed pre →
     parse_page_range s zero_index = Raise (ValueError (InvalidRange r))).
Proof.
  intros Hsplit Hdesc.
  assert (Hr : ¬ spec_token_wellformed r).
  { intros Hwf%(parse_page_range_step_wellformed s r ∅).
    by rewrite parse_page_range_step_descending in Hwf. }
  split.
  - destruct (parse_page_range_loop_fails s (Str.split "," s) r ∅) as [e He].
    { rewrite Hsplit. apply elem_of_app. right. left. }
    { intros pgs. by rewrite parse_page_range_step_descending. }
    pose proof He as (pre' & r' & post' & Hsplit' & Hpre' & Hr' & ->)
                       %parse_page_range_loop_first_failure.
    exists pre', r', post'. split; [done|]. split; [done|]. split; [done|].
    split; [|unfold parse_page_range; by rewrite He].
    destruct (decide (length pre' ≤ length pre)%nat) as [|Hlonger]; [done|].
    exfalso. apply Hr.
    assert (Hlookup : pre' !! length pre = Some r).
    { rewrite <- (lookup_app_l pre' (r' :: post')) by lia.
      rewrite <- Hsplit', Hsplit. by apply list_lookup_middle. }
    eapply Forall_forall in Hpre'; [exact Hpre'|].
    by eapply list_elem_of_lookup_2.
  - intros Hpre. unfold parse_page_range. rewrite Hsplit.
    rewrite (parse_page_range_loop_app s pre r post ∅ (ValueError (InvalidRange r))).
    + done.
    + eapply Forall_impl; [exact Hpre|]. intros r' Hwf pgs.
      by apply parse_page_range_step_wellformed.
    + intros pgs. by apply parse_page_range_step_descending.
Qed.

Lemma descending_pair_fails_witness :
  (∃ pre' r' post',
     Str.split "," "x-1,5-3,9" = pre' ++ r' :: post'
     ∧ Forall spec_token_wellformed pre'
     ∧ ¬ spec_token_wellformed r'
     ∧ (length pre' ≤ length ["x-1"])%nat
     ∧ parse_page_range "x-1,5-3,9" true
       = Raise (ValueError (spec_token_error "x-1,5-3,9" r')))
  ∧ parse_page_range "1,5-3,9" true = Raise (ValueError (InvalidRange "5-3")).
Proof.
  assert (Hdesc : spec_descending_pair "5-3")
    by (exists "5", "3", 5, 3; vm_compute; done).
  split.
  - apply (descending_pair_fails "x-1,5-3,9" true ["x-1"] "5-3" ["9"]).
    + vm_compute. reflexivity.
    + exact Hdesc.
  - destruct (descending_pair_fails "1,5-3,9" true ["1"] "5-3" ["9"]) as [_ H2].
    + vm_compute. reflexivity.
    + exact Hdesc.
    + apply H2. constructor; [|constructor]. exists 1. vm_compute. reflexivity.
Defined.

(** ** pages_to_keep *)

(** C6 (Operation.pagesToKeep): with the range spec unset, and either
    value of keep, pages_to_keep(N) is the full page set {0,...,N-1}. *)
Theorem pages_to_keep_unset_range f k a N :
  pages_to_keep {| filename := f; page_range := None; keep := k; angle := a |} N
    = Ok (set_range 0 N)
  ∧ ∀ x, x ∈ set_range 0 N ↔ 0 ≤ x < N.
Proof.
  split; [reflexivity|]. intros x. apply elem_of_set_range.
Qed.

(** C5 (Operation.pagesToKeep): with keep false and a range spec that
    parses to S, pages_to_keep(N) is {0,...,N-1} minus S; the members of
    S outside {0,...,N-1} have no effect on the result. *)
Theorem pages_to_keep_remove f s a N S :
  parse_page_range s true = Ok S →
  pages_to_keep {| filename := f; page_range := Some s; keep := false; angle := a |} N
    = Ok (set_range 0 N ∖ S)
  ∧ (∀ x, x ∈ set_range 0 N ∖ S ↔ 0 ≤ x < N ∧ x ∉ S)
  ∧ set_range 0 N ∖ S = set_range 0 N ∖ (S ∩ set_range 0 N).
Proof.
  intros HS. split; [|split].
  - unfold pages_to_keep. simpl. by rewrite HS.
  - intros x. by rewrite elem_of_difference, elem_of_set_range.
  - apply set_eq. intros x.
    rewrite !elem_of_difference, elem_of_intersection. tauto.
Qed.

Lemma pages_to_keep_remove_witness :
  pages_to_keep {| filename := "a.pdf"; page_range := Some "1-2,9";
                   keep := false; angle := 0 |} 4
    = Ok (set_range 0 4 ∖ {[0; 1; 8]})
  ∧ (∀ x, x ∈ set_range 0 4 ∖ ({[0; 1; 8]} : gset Z) ↔ 0 ≤ x < 4 ∧ x ∉ ({[0; 1; 8]} : gset Z))
  ∧ set_range 0 4 ∖ {[0; 1; 8]} = set_range 0 4 ∖ ({[0; 1; 8]} ∩ set_range 0 4).
Proof.
  apply (pages_to_keep_remove "a.pdf" "1-2,9" 0 4 {[0; 1; 8]}).
  vm_compute. reflexivity.
Defined.

(** C4, as the claim states it, fails: keeping page 7 of a document of
    three pages gives the set {6}. *)
Lemma pages_to_keep_keep_out_of_document :
  ∃ S, pages_to_keep {| filename := "a.pdf"; page_range := Some "7";
                        keep := true; angle := 0 |} 3 = Ok S
       ∧ 6 ∈ S ∧ ¬ (0 ≤ 6 < 3).
Proof.
  exists {[6]}. split; [vm_compute; reflexivity|]. split; [by_compute|lia].
Qed.

(** C4 (amended): for every Operation whose range spec is unset or whose
    keep is false, and every page count N, every member of the set that
    pages_to_keep(N) returns is a non-negative integer strictly less
    than N; with keep true and a range spec the parsed set is returned
    as it is, unfiltered. *)
Theorem pages_to_keep_within_document op N S :
  pages_to_keep op N = Ok S →
  (page_range op = None ∨ keep op = false → ∀ x, x ∈ S → 0 ≤ x < N)
  ∧ (∀ s, page_range op = Some s → keep op = true →
          parse_page_range s true = Ok S).
Proof.
  unfold pages_to_keep. intros HS. split.
  - intros Hcase x Hx. destruct (page_range op) as [s|].
    + destruct Hcase as [?|Hkeep]; [done|]. rewrite Hkeep in HS.
      apply bind_Ok in HS as (parsed & _ & [= <-]).
      apply elem_of_difference in Hx as [Hx _]. by apply elem_of_set_range in Hx.
    + injection HS as <-. by apply elem_of_set_range in Hx.
  - intros s Hs Hkeep. rewrite Hs, Hkeep in HS.
    apply bind_Ok in HS as (parsed & Hparsed & [= <-]). done.
Qed.

Lemma pages_to_keep_within_document_witness :
  pages_to_keep {| filename := "a.pdf"; page_range := Some "1-2,9";
                   keep := false; angle := 0 |} 4 = Ok {[2; 3]}
  ∧ 2 ∈ ({[2; 3]} : gset Z) ∧ 0 ≤ 2 < 4.
Proof.
  split; [vm_compute; reflexivity|]. split; [by_compute|].
  apply (pages_to_keep_within_document
           {| filename := "a.pdf"; page_range := Some "1-2,9";
              keep := false; angle := 0 |} 4 {[2; 3]}).
  - vm_compute. reflexivity.
  - right. reflexivity.
  - by_compute.
Defined.

(** ** parse_output_file *)

Lemma index_from_absent x args i : x ∉ args → index_from x args i = -1.
Proof.
  revert i. induction args as [|a rest IH]; intros i Hx; simpl; [done|].
  apply not_elem_of_cons in Hx as [Hne Hx].
  destruct (String.eqb_spec a x) as [->|_]; [done|]. by apply IH.
Qed.

Lemma index_from_last x pre i :
  x ∉ pre → index_from x (pre ++ [x]) i = i + Z.of_nat (length pre).
Proof.
  revert i. induction pre as [|a rest IH]; intros i Hx; simpl.
  - rewrite String.eqb_refl. lia.
  - apply not_elem_of_cons in Hx as [Hne Hx].
    destruct (String.eqb_spec a x) as [->|_]; [done|]. rewrite IH by done. lia.
Qed.

Lemma list_pop_not_ValueError args i e : list_pop args i ≠ Raise (ValueError e).
Proof.
  unfold list_pop. destruct (_ =? 0); [done|].
  destruct (if 0 <=? _ then _ else _); done.
Qed.

(** Both flags at positions greater than zero: the conflict is raised. *)
Lemma parse_output_file_conflict args :
  0 < index_or_minus1 "-o" args → 0 < index_or_minus1 "--output" args →
  parse_output_file args = Raise (ValueError BothOutputFlags).
Proof.
  intros Ho Houtput. unfold parse_output_file.
  destruct (Z.ltb_spec 0 (index_or_minus1 "-o" args)); [|lia].
  destruct (Z.ltb_spec 0 (index_or_minus1 "--output" args)); [done|lia].
Qed.

(** A flag at position zero escapes the test [idx_o > 0 and idx_output > 0]. *)
Lemma parse_output_file_no_conflict_at_zero flag rest :
  flag = "-o" ∨ flag = "--output" →
  parse_output_file (flag :: rest) ≠ Raise (ValueError BothOutputFlags).
Proof.
  intros Hflag. unfold parse_output_file.
  assert (Hzero : (0 <? index_or_minus1 "-o" (flag :: rest))
                  && (0 <? index_or_minus1 "--output" (flag :: rest)) = false).
  { destruct Hflag as [-> | ->]; unfold index_or_minus1; simpl; [done|].
    apply andb_false_r. }
  rewrite Hzero. destruct (_ =? -1); [done|].
  destruct (list_pop (flag :: rest) _) as [[outfile args1]|e] eqn:Hpop1; simpl.
  - destruct (list_pop args1 _) as [[x args2]|e] eqn:Hpop2; simpl; [done|].
    intros H. injection H as ->. by eapply list_pop_not_ValueError.
  - intros H. injection H as ->. by eapply list_pop_not_ValueError.
Qed.

(** C2: with both -o and --output present, the first of them at
    position 0, output-file extraction raises no conflict: it returns
    the value of the later flag and leaves the earlier flag and its
    value in the argument list. *)
Theorem conflicting_flags_missed_at_position_zero :
  "-o" ∈ ["-o"; "out.pdf"; "--output"; "x.pdf"]
  ∧ "--output" ∈ ["-o"; "out.pdf"; "--output"; "x.pdf"]
  ∧ parse_output_file ["-o"; "out.pdf"; "--output"; "x.pdf"]
      = Ok ("x.pdf", ["-o"; "out.pdf"])
  ∧ ∀ flag rest, flag = "-o" ∨ flag = "--output" →
      parse_output_file (flag :: rest) ≠ Raise (ValueError BothOutputFlags).
Proof.
  split; [by_compute|]. split; [by_compute|].
  split; [vm_compute; reflexivity|].
  apply parse_output_file_no_conflict_at_zero.
Qed.

Lemma conflicting_flags_missed_at_position_zero_witness :
  parse_output_file ["--output"; "x.pdf"; "a.pdf"; "-o"; "out.pdf"]
    = Ok ("out.pdf", ["--output"; "x.pdf"; "a.pdf"])
  ∧ parse_output_file ["--output"; "x.pdf"; "a.pdf"; "-o"; "out.pdf"]
    ≠ Raise (ValueError BothOutputFlags).
Proof.
  split; [vm_compute; reflexivity|].
  apply (proj2 (proj2 (proj2 conflicting_flags_missed_at_position_zero))).
  right. reflexivity.
Defined.

Lemma parse_output_file_lone_trailing_flag pre flag :
  flag = "-o" ∨ flag = "--output" →
  "-o" ∉ pre → "--output" ∉ pre →
  parse_output_file (pre ++ [flag]) = Raise (IndexError "pop index out of range").
Proof.
  intros Hflag Ho Houtput. unfold parse_output_file, index_or_minus1.
  assert (Hidx : ∃ a b, index_from "-o" (pre ++ [flag]) 0 = a
                        ∧ index_from "--output" (pre ++ [flag]) 0 = b
                        ∧ (a = -1 ∨ b = -1)
                        ∧ Z.max a b = Z.of_nat (length pre)).
  { destruct Hflag as [-> | ->].
    - exists (Z.of_nat (length pre)), (-1). split; [by rewrite index_from_last|].
      split; [|split; [by right|lia]].
      apply index_from_absent. rewrite elem_of_app, list_elem_of_singleton.
      intros [?|?]; done.
    - exists (-1), (Z.of_nat (length pre)). split.
      { apply index_from_absent. rewrite elem_of_app, list_elem_of_singleton.
        intros [?|?]; done. }
      split; [by rewrite index_from_last|]. split; [by left|lia]. }
  destruct Hidx as (a & b & -> & -> & Hneg & Hmax). rewrite Hmax.
  assert ((0 <? a) && (0 <? b) = false) as ->.
  { destruct Hneg as [-> | ->]; [done|apply andb_false_r]. }
  destruct (Z.eqb_spec (Z.of_nat (length pre)) (-1)); [lia|].
  unfold list_pop. rewrite length_app. simpl.
  destruct (Z.eqb_spec (Z.of_nat (length pre + 1)) 0); [lia|].
  destruct (Z.ltb_spec (Z.of_nat (length pre) + 1) 0); [lia|].
  destruct (Z.leb_spec 0 (Z.of_nat (length pre) + 1)); [|lia].
  rewrite lookup_ge_None_2; [done|]. rewrite length_app. simpl. lia.
Qed.

Lemma parse_output_file_default args :
  "-o" ∉ args → "--output" ∉ args →
  parse_output_file args = Ok ("combined.pdf", args).
Proof.
  intros Ho Houtput. unfold parse_output_file, index_or_minus1.
  rewrite !index_from_absent by done. reflexivity.
Qed.

(** ** The effects of main *)

Section MainProperties.
Context {order : PySetOrder} {lib : PdfLib} {fs : FileSystem}.

Local Abbreviation M := (eff page).

Lemma eff_bind_Next {A B} (t : list (event page)) (a : A) (k : A → M B) :
  (t, Next a) ≫= k = (t ++ (k a).1, (k a).2).
Proof. unfold mbind, eff_bind. by destruct (k a). Qed.

Lemma eff_bind_Stop {A B} (t : list (event page)) (x : exit) (k : A → M B) :
  ((t, Stop x) : M A) ≫= k = (t, Stop x).
Proof. reflexivity. Qed.

Lemma eff_bind_nil {A B} (a : A) (k : A → M B) :
  (([], Next a) : M A) ≫= k = k a.
Proof. rewrite eff_bind_Next. by destruct (k a). Qed.

Lemma eff_bind_mret {A B} (a : A) (k : A → M B) : mret a ≫= k = k a.
Proof. apply eff_bind_nil. Qed.

Lemma eff_bind_emit {B} (e : event page) (k : unit → M B) :
  emit e ≫= k = (e :: (k tt).1, (k tt).2).
Proof. unfold emit. by rewrite eff_bind_Next. Qed.

Lemma eff_bind_call {A B} (r : res A) (k : A → M B) :
  call r ≫= k = match r with
                | Ok a => k a
                | Raise e => ([], Stop (Uncaught e))
                end.
Proof. destruct r; simpl; [apply eff_bind_mret|reflexivity]. Qed.

Lemma os_path_isfile_bind {B} (path : string) (k : bool → M B) :
  os_path_isfile path ≫= k
  = (EvIsFile path :: (k (path_isfile path)).1, (k (path_isfile path)).2).
Proof.
  unfold os_path_isfile, emit, mbind, eff_bind, mret, eff_ret. simpl.
  by destruct (k _).
Qed.

Lemma os_path_exists_bind {B} (path : string) (k : bool → M B) :
  os_path_exists path ≫= k
  = (EvExists path :: (k (path_exists path)).1, (k (path_exists path)).2).
Proof.
  unfold os_path_exists, emit, mbind, eff_bind, mret, eff_ret. simpl.
  by destruct (k _).
Qed.

Lemma writes_app (t1 t2 : list (event page)) :
  writes (t1 ++ t2) = writes t1 ++ writes t2.
Proof. apply omap_app. Qed.

(** *** Grouping *)

Lemma apply_flag_trace operation cmd value : (apply_flag operation cmd value).1 = [].
Proof.
  unfold apply_flag.
  repeat match goal with |- context [if ?b then _ else _] => destruct b end;
    try reflexivity.
  rewrite eff_bind_call. by destruct (Str.int value).
Qed.

Lemma apply_flag_unknown operation cmd value :
  cmd ∉ known_flags →
  apply_flag operation cmd value = ([], Stop (Uncaught (NameError "current"))).
Proof.
  intros Hcmd. unfold apply_flag.
  repeat match goal with
         | |- context [String.eqb cmd ?f] =>
             destruct (String.eqb_spec cmd f) as [->|_];
             [exfalso; apply Hcmd; by_compute|]
         end.
  reflexivity.
Qed.

(** The inner loop ends [main], or hands an operation and a queue that
    is no longer than the one it started from to what follows it. *)
Lemma parse_flags_cases {A} (after : Operation → list string → M A) operation queue :
  (∃ x, parse_flags after operation queue = ([], Stop x))
  ∨ (∃ operation' queue', (length queue' ≤ length queue)%nat
       ∧ parse_flags after operation queue = after operation' queue').
Proof.
  remember (length queue) as n eqn:Hn.
  assert (Hle : (length queue ≤ n)%nat) by lia. clear Hn.
  revert operation queue Hle.
  induction n as [n IH] using lt_wf_ind. intros operation queue Hle.
  destruct queue as [|cmd [|value queue2]]; simpl.
  - right. exists operation, []. split; [simpl; lia|done].
  - destruct (Str.startswith_dash cmd); [left; by eexists|].
    right. exists operation, [cmd]. split; [simpl in *; lia|done].
  - destruct (Str.startswith_dash cmd).
    + pose proof (apply_flag_trace operation cmd value) as Htrace.
      destruct (apply_flag operation cmd value) as [t [operation'|x]];
        simpl in Htrace; subst t.
      * rewrite eff_bind_nil.
        destruct (IH (length queue2) ltac:(simpl in *; lia) operation' queue2
                    ltac:(lia)) as [Hstop|(op2 & q2 & Hlen & Heq)].
        -- by left.
        -- right. exists op2, q2. split; [simpl in *; lia|done].
      * left. by exists x.
    + right. exists operation, (cmd :: value :: queue2). split; [simpl in *; lia|done].
Qed.

Lemma parse_operations_cons operations last_file queue1 :
  parse_operations operations (last_file :: queue1)
  = (isfile ← os_path_isfile last_file ;
     if negb isfile then
       _ ← emit (EvPrint (MsgNoSuchFile last_file)) ; stop Returned
     else
       parse_flags
         (λ operation queue2, parse_operations (operations ++ [operation]) queue2)
         (new_operation last_file) queue1).
Proof. reflexivity. Qed.

Lemma parse_operations_no_write operations queue :
  writes (parse_operations operations queue).1 = [].
Proof.
  remember (length queue) as n eqn:Hn.
  assert (Hle : (length queue ≤ n)%nat) by lia. clear Hn.
  revert operations queue Hle.
  induction n as [n IH] using lt_wf_ind. intros operations queue Hle.
  destruct queue as [|last_file queue1]; [done|].
  rewrite parse_operations_cons, os_path_isfile_bind. cbn [fst writes omap].
  destruct (path_isfile last_file); cbn [negb].
  - destruct (parse_flags_cases
                (λ operation queue2, parse_operations (operations ++ [operation]) queue2)
                (new_operation last_file) queue1)
      as [[x ->]|(op' & q' & Hlen & ->)]; [done|].
    apply (IH (length q')); simpl in *; lia.
  - by rewrite eff_bind_emit.
Qed.

(** *** The pipeline *)

Lemma add_pages_cons reader op i rest writer :
  add_pages reader op (i :: rest) writer
  = match fetch reader op i with
    | Ok p' => add_pages reader op rest (writer ++ [p'])
    | Raise e => ([], Stop (Uncaught e))
    end.
Proof.
  cbn [add_pages]. unfold fetch. rewrite eff_bind_call.
  destruct (pages_getitem reader i) as [p|e]; simpl; [|done].
  destruct (negb (angle op =? 0)).
  - rewrite eff_bind_call. by destruct (rotate p (angle op)).
  - by rewrite eff_bind_mret.
Qed.

(** The loop appends, in the order of [indices], what each index
    fetches, and has no effect of its own. *)
Lemma add_pages_Next reader op indices writer t writer' :
  add_pages reader op indices writer = (t, Next writer') →
  t = [] ∧ ∃ contributed,
    writer' = writer ++ contributed
    ∧ Forall2 (λ i p, fetch reader op i = Ok p) indices contributed.
Proof.
  revert writer. induction indices as [|i rest IH]; intros writer.
  - intros [= <- <-]. split; [done|]. exists []. by rewrite app_nil_r.
  - rewrite add_pages_cons.
    destruct (fetch reader op i) as [p|e] eqn:Hfetch; [|discriminate].
    intros (-> & contributed & -> & Hall)%IH. split; [done|].
    exists (p :: contributed). split; [by rewrite <- app_assoc|by constructor].
Qed.

Lemma add_pages_trace reader op indices writer :
  (add_pages reader op indices writer).1 = [].
Proof.
  revert writer. induction indices as [|i rest IH]; intros writer; [done|].
  rewrite add_pages_cons. by destruct (fetch reader op i).
Qed.

Lemma add_pages_fails reader op indices writer i e :
  i ∈ indices → pages_getitem reader i = Raise e →
  ∃ x, add_pages reader op indices writer = ([], Stop x).
Proof.
  intros Hin Hraise. revert writer.
  induction indices as [|j rest IH]; intros writer; [by apply elem_of_nil in Hin|].
  rewrite add_pages_cons. destruct (fetch reader op j) as [p|e'] eqn:Hfetch.
  - apply elem_of_cons in Hin as [->|Hin]; [|by apply IH].
    unfold fetch in Hfetch. by rewrite Hraise in Hfetch.
  - by eexists.
Qed.

Lemma combine_step_eq op writer :
  combine_step op writer
  = match PdfReader (filename op) with
    | Raise e => ([EvRead (filename op)], Stop (Uncaught e))
    | Ok reader =>
        match pages_to_keep op (Z.of_nat (length reader)) with
        | Ok pages =>
            (EvRead (filename op)
               :: (add_pages reader op (set_iter pages) writer).1,
             (add_pages reader op (set_iter pages) writer).2)
        | Raise (ValueError e) =>
            ([EvRead (filename op); EvPrint (MsgError e)], Stop Returned)
        | Raise e => ([EvRead (filename op)], Stop (Uncaught e))
        end
    end.
Proof.
  unfold combine_step. rewrite eff_bind_emit, eff_bind_call.
  destruct (PdfReader (filename op)) as [reader|e]; [|done].
  destruct (pages_to_keep op (Z.of_nat (length reader))) as [pages|[]]; simpl;
    try done.
  by destruct (add_pages reader op (set_iter pages) writer).
Qed.

Lemma combine_step_no_write op writer : writes (combine_step op writer).1 = [].
Proof.
  rewrite combine_step_eq.
  destruct (PdfReader (filename op)) as [reader|e]; [|done].
  destruct (pages_to_keep op (Z.of_nat (length reader))) as [pages|[]]; try done.
  simpl. by rewrite add_pages_trace.
Qed.

Lemma combine_cons op rest writer :
  combine (op :: rest) writer
  = match combine_step op writer with
    | (t, Next writer') => (t ++ (combine rest writer').1, (combine rest writer').2)
    | (t, Stop x) => (t, Stop x)
    end.
Proof.
  cbn [combine]. destruct (combine_step op writer) as [t [writer'|x]]; [|done].
  by rewrite eff_bind_Next.
Qed.

Lemma combine_no_write operations writer : writes (combine operations writer).1 = [].
Proof.
  revert writer. induction operations as [|op rest IH]; intros writer; [done|].
  rewrite combine_cons. pose proof (combine_step_no_write op writer) as Hstep.
  destruct (combine_step op writer) as [t [writer'|x]]; simpl in *; [|done].
  by rewrite writes_app, Hstep, IH.
Qed.

Lemma op_fails_combine_step op writer :
  op_fails op → ∃ t x, combine_step op writer = (t, Stop x).
Proof.
  intros (reader & Hreader & Hfail). rewrite combine_step_eq, Hreader.
  destruct Hfail as [[e ->]|(pages & i & e & -> & Hin & Hraise)].
  - destruct e; by do 2 eexists.
  - destruct (add_pages_fails reader op (set_iter pages) writer i e) as [x ->].
    + rewrite set_iter_perm. by apply elem_of_elements.
    + done.
    + by do 2 eexists.
Qed.

(** The loop over the operations stops at the first one that fails. *)
Lemma combine_fails operations writer :
  Exists op_fails operations → ∃ t x, combine operations writer = (t, Stop x).
Proof.
  intros Hex. revert writer.
  induction operations as [|op rest IH]; intros writer; [by inversion Hex|].
  rewrite combine_cons.
  destruct (combine_step op writer) as [t [writer'|x]] eqn:Hstep; [|by do 2 eexists].
  apply Exists_cons in Hex as [Hop|Hrest].
  - destruct (op_fails_combine_step op writer Hop) as (t' & x & Hstop). congruence.
  - destruct (IH Hrest writer') as (t' & x & ->). by do 2 eexists.
Qed.

(** *** main, case by case *)

Lemma main_reaches_pipeline argv outfile args t0 operations :
  wants_help argv = false →
  parse_output_file argv = Ok (outfile, args) →
  path_exists outfile = false →
  parse_operations [] args = (t0, Next operations) →
  main argv
  = match combine operations [] with
    | (t1, Next doc) =>
        (EvExists outfile :: t0 ++ t1
           ++ [EvWrite outfile doc; EvPrint (MsgSaved outfile)], Returned)
    | (t1, Stop x) => (EvExists outfile :: t0 ++ t1, x)
    end.
Proof.
  intros Hhelp Hout Hexists Hops. unfold main, main_body.
  rewrite Hhelp, Hout. cbn [call_except_ValueError]. rewrite eff_bind_mret.
  rewrite os_path_exists_bind, Hexists, Hops, eff_bind_Next.
  destruct (combine operations []) as [t1 [doc|x]]; [|done].
  by rewrite eff_bind_Next, eff_bind_emit.
Qed.

(** Every run either writes nothing, or went through the whole pipeline
    and then wrote the accumulated document, once, as its last effect
    but for the closing message. *)
Lemma main_writes argv :
  writes (main argv).1 = []
  ∨ ∃ outfile args t0 operations t1 doc,
      parse_output_file argv = Ok (outfile, args)
      ∧ parse_operations [] args = (t0, Next operations)
      ∧ combine operations [] = (t1, Next doc)
      ∧ writes (EvExists outfile :: t0 ++ t1) = []
      ∧ main argv
        = (EvExists outfile :: t0 ++ t1
             ++ [EvWrite outfile doc; EvPrint (MsgSaved outfile)], Returned).
Proof.
  destruct (wants_help argv) eqn:Hhelp.
  { left. unfold main, main_body. by rewrite Hhelp. }
  destruct (parse_output_file argv) as [[outfile args]|e] eqn:Hout.
  2:{ left. unfold main, main_body. rewrite Hhelp, Hout. by destruct e. }
  destruct (path_exists outfile) eqn:Hexists.
  { left. unfold main, main_body. rewrite Hhelp, Hout.
    cbn [call_except_ValueError]. rewrite eff_bind_mret.
    by rewrite os_path_exists_bind, Hexists. }
  pose proof (parse_operations_no_write [] args) as Hgroup.
  destruct (parse_operations [] args) as [t0 [operations|x]] eqn:Hops.
  2:{ left. unfold main, main_body. rewrite Hhelp, Hout.
      cbn [call_except_ValueError]. rewrite eff_bind_mret.
      rewrite os_path_exists_bind, Hexists, Hops. simpl in *. done. }
  rewrite (main_reaches_pipeline argv outfile args t0 operations) by done.
  pose proof (combine_no_write operations []) as Hcombine.
  destruct (combine operations []) as [t1 [doc|x]] eqn:Hrun; simpl in *.
  - right. exists outfile, args, t0, operations, t1, doc.
    repeat split; try done. by rewrite writes_app, Hgroup, Hcombine.
  - left. by rewrite writes_app, Hgroup, Hcombine.
Qed.

Lemma wants_help_false argv :
  argv ≠ [] → "-h" ∉ argv → "--help" ∉ argv → wants_help argv = false.
Proof.
  intros Hne Hh Hhelp. unfold wants_help.
  rewrite (bool_decide_eq_false_2 _ Hh), (bool_decide_eq_false_2 _ Hhelp).
  destruct argv; [done|]. reflexivity.
Qed.

(** C9 (CombinePipeline): when any operation fails in the pipeline (its
    range spec does not parse, or an index of its page set is out of the
    bounds of its document) the run writes nothing; and a run that
    writes does so once, after every operation has been processed with
    success, the written document being what the whole pipeline
    accumulated. *)
Theorem no_write_unless_all_operations_succeed argv :
  (∀ outfile args t0 operations,
     parse_output_file argv = Ok (outfile, args) →
     parse_operations [] args = (t0, Next operations) →
     Exists op_fails operations →
     writes (main argv).1 = [])
  ∧ (∀ path doc, (path, doc) ∈ writes (main argv).1 →
       ∃ args t0 operations t1,
         parse_output_file argv = Ok (path, args)
         ∧ parse_operations [] args = (t0, Next operations)
         ∧ combine operations [] = (t1, Next doc)
         ∧ Forall (λ op, ¬ op_fails op) operations
         ∧ writes (EvExists path :: t0 ++ t1) = []
         ∧ main argv
           = (EvExists path :: t0 ++ t1
                ++ [EvWrite path doc; EvPrint (MsgSaved path)], Returned)).
Proof.
  split.
  - intros outfile args t0 operations Hout Hops Hex.
    destruct (main_writes argv)
      as [Hnone|(outfile' & args' & t0' & ops' & t1 & doc & Hout' & Hops' & Hrun & _)];
      [done|].
    rewrite Hout in Hout'. injection Hout' as <- <-.
    rewrite Hops in Hops'. injection Hops' as <- <-.
    destruct (combine_fails operations [] Hex) as (t & x & Hstop). congruence.
  - intros path doc Hin.
    destruct (main_writes argv)
      as [Hnone|(outfile & args & t0 & ops & t1 & doc' & Hout & Hops & Hrun & Hpre & Hmain)].
    { rewrite Hnone in Hin. by apply elem_of_nil in Hin. }
    rewrite Hmain in Hin. cbn [fst] in Hin.
    rewrite app_comm_cons, app_assoc, writes_app in Hin.
    rewrite <- app_comm_cons, Hpre in Hin. simpl in Hin.
    apply list_elem_of_singleton in Hin. injection Hin as -> ->.
    exists args, t0, ops, t1. repeat split; try done.
    apply Forall_Exists_neg. intros Hex.
    destruct (combine_fails ops [] Hex) as (t & x & Hstop). congruence.
Qed.

(** C3: a flag token that the inner loop pops and that is none of
    -k/--keep, -r/--remove, -a/--angle ends the run at once with the
    uncaught NameError of the unbound name [current]; no message naming
    the token is printed. *)
Theorem unknown_flag_raises_NameError :
  (∀ A (after : Operation → list string → M A) operation cmd value rest,
     Str.startswith_dash cmd = true → cmd ∉ known_flags →
     parse_flags after operation (cmd :: value :: rest)
     = ([], Stop (Uncaught (NameError "current"))))
  ∧ (∀ last_file cmd value rest,
       "-h" ∉ last_file :: cmd :: value :: rest →
       "--help" ∉ last_file :: cmd :: value :: rest →
       "-o" ∉ last_file :: cmd :: value :: rest →
       "--output" ∉ last_file :: cmd :: value :: rest →
       path_exists "combined.pdf" = false →
       path_isfile last_file = true →
       Str.startswith_dash cmd = true → cmd ∉ known_flags →
       main (last_file :: cmd :: value :: rest)
       = ([EvExists "combined.pdf"; EvIsFile last_file],
          Uncaught (NameError "current"))).
Proof.
  assert (Hflags : ∀ A (after : Operation → list string → M A) operation cmd value rest,
     Str.startswith_dash cmd = true → cmd ∉ known_flags →
     parse_flags after operation (cmd :: value :: rest)
     = ([], Stop (Uncaught (NameError "current")))).
  { intros A after operation cmd value rest Hdash Hcmd.
    cbn [parse_flags]. rewrite Hdash. by rewrite apply_flag_unknown. }
  split; [exact Hflags|].
  intros last_file cmd value rest Hh Hhelp Ho Houtput Hexists Hisfile Hdash Hcmd.
  unfold main, main_body.
  rewrite wants_help_false by done.
  rewrite parse_output_file_default by done.
  cbn [call_except_ValueError]. rewrite eff_bind_mret.
  rewrite os_path_exists_bind, Hexists.
  rewrite parse_operations_cons, os_path_isfile_bind, Hisfile. cbn [negb].
  by rewrite Hflags.
Qed.

(** C10 (amended): for every argument list whose final token is -o or
    --output and which holds no other -o or --output token, output-file
    extraction pops at the position after the flag, out of the bounds of
    the list, and raises IndexError; [main] catches only ValueError, so
    the run (when no help flag is there) ends with that exception
    uncaught, with nothing printed and no output path defaulted. *)
Theorem lone_trailing_output_flag_IndexError pre flag :
  flag = "-o" ∨ flag = "--output" →
  "-o" ∉ pre → "--output" ∉ pre →
  parse_output_file (pre ++ [flag]) = Raise (IndexError "pop index out of range")
  ∧ ("-h" ∉ pre → "--help" ∉ pre →
     main (pre ++ [flag]) = ([], Uncaught (IndexError "pop index out of range"))).
Proof.
  intros Hflag Ho Houtput.
  pose proof (parse_output_file_lone_trailing_flag pre flag Hflag Ho Houtput) as Hpop.
  split; [exact Hpop|]. intros Hh Hhelp. unfold main, main_body.
  rewrite wants_help_false, Hpop; [done|..].
  - by destruct pre.
  - rewrite elem_of_app, list_elem_of_singleton.
    intros [?|Heq]; [done|]. by destruct Hflag as [-> | ->].
  - rewrite elem_of_app, list_elem_of_singleton.
    intros [?|Heq]; [done|]. by destruct Hflag as [-> | ->].
Qed.

(** *** Page order *)

Lemma Sorted_lt_le (l : list Z) : Sorted Z.lt l → Sorted Z.le l.
Proof.
  induction 1 as [|x l _ IH Hhd]; constructor; [done|].
  destruct Hhd; constructor. lia.
Qed.

Lemma StronglySorted_le_NoDup_lt (l : list Z) :
  StronglySorted Z.le l → NoDup l → Sorted Z.lt l.
Proof.
  induction 1 as [|x l _ IH Hall]; intros Hnodup; constructor.
  - apply IH. by apply NoDup_cons in Hnodup as [_ ?].
  - apply NoDup_cons in Hnodup as [Hx _].
    destruct l as [|y l]; constructor.
    apply Forall_cons in Hall as [Hle _].
    assert (x ≠ y) by (intros ->; apply Hx; left). lia.
Qed.

Lemma ascending_iff_sorted_elements (l : list Z) (pages : gset Z) :
  l ≡ₚ elements pages →
  ascending l ↔ l = merge_sort Z.le (elements pages).
Proof.
  intros Hperm. unfold ascending. split.
  - intros Hasc. apply (Sorted_unique Z.le).
    + by apply Sorted_lt_le.
    + apply Sorted_merge_sort. apply _.
    + by rewrite merge_sort_Permutation.
  - intros ->. apply StronglySorted_le_NoDup_lt.
    + apply StronglySorted_merge_sort; apply _.
    + rewrite merge_sort_Permutation. apply NoDup_elements.
Qed.

(** C1 (amended): the pages an Operation contributes to the output
    document are the members of pages_to_keep(N), each appended once,
    in the order in which the set is iterated over; the program does not
    sort them, so they are in ascending numeric page order exactly when
    the set is iterated in ascending order. *)
Theorem operation_pages_in_set_iteration_order op writer reader pages t writer' :
  PdfReader (filename op) = Ok reader →
  pages_to_keep op (Z.of_nat (length reader)) = Ok pages →
  combine_step op writer = (t, Next writer') →
  ∃ contributed,
    writer' = writer ++ contributed
    ∧ Forall2 (λ i p, fetch reader op i = Ok p) (set_iter pages) contributed
    ∧ NoDup (set_iter pages)
    ∧ (∀ i, i ∈ set_iter pages ↔ i ∈ pages)
    ∧ (ascending (set_iter pages)
       ↔ set_iter pages = merge_sort Z.le (elements pages)).
Proof.
  intros Hreader Hpages. rewrite combine_step_eq, Hreader, Hpages.
  destruct (add_pages reader op (set_iter pages) writer) as [t' [w|x]] eqn:Hadd;
    [|discriminate].
  intros [= <- <-].
  apply add_pages_Next in Hadd as (_ & contributed & -> & Hall).
  exists contributed. split; [done|]. split; [done|]. split; [|split].
  - rewrite set_iter_perm. apply NoDup_elements.
  - intros i. rewrite set_iter_perm. apply elem_of_elements.
  - apply ascending_iff_sorted_elements, set_iter_perm.
Qed.

End MainProperties.

(** ** Runs on sample documents *)

Module Runs.
Import Sample.

(** C1, as the claim states it, fails: with the slots of a CPython set
    iterated in order, the keep spec "9,2" on a document of nine pages
    contributes page 9 and then page 2. *)
Lemma keep_pages_emitted_out_of_numeric_order :
  @page_sequence slot_order
     {| filename := "in.pdf"; page_range := Some "9,2"; keep := true; angle := 0 |} 9
    = Ok [8; 1]
  ∧ ¬ ascending [8; 1]
  ∧ run slot_order one_file ["in.pdf"; "--keep"; "9,2"]
    = ([EvExists "combined.pdf"; EvIsFile "in.pdf"; EvRead "in.pdf";
        EvWrite "combined.pdf" [(9, 0); (2, 0)];
        EvPrint (MsgSaved "combined.pdf")], Returned).
Proof.
  split; [vm_compute; reflexivity|]. split; [|vm_compute; reflexivity].
  unfold ascending. intros Hsorted.
  apply Sorted_inv in Hsorted as [_ Hhd]. apply HdRel_inv in Hhd. lia.
Qed.

Lemma operation_pages_in_set_iteration_order_witness :
  ∃ contributed,
    [(1, 0); (2, 0); (4, 0)] = [] ++ contributed
    ∧ Forall2 (λ i p, @fetch (pdf_lib one_file) (document 9)
                        {| filename := "in.pdf"; page_range := Some "4,1-2";
                           keep := true; angle := 0 |} i = Ok p)
        (@set_iter slot_order {[0; 1; 3]}) contributed
    ∧ NoDup (@set_iter slot_order {[0; 1; 3]})
    ∧ (∀ i, i ∈ @set_iter slot_order {[0; 1; 3]} ↔ i ∈ ({[0; 1; 3]} : gset Z))
    ∧ (ascending (@set_iter slot_order {[0; 1; 3]})
       ↔ @set_iter slot_order {[0; 1; 3]} = merge_sort Z.le (elements ({[0; 1; 3]} : gset Z))).
Proof.
  apply (@operation_pages_in_set_iteration_order slot_order (pdf_lib one_file)
           {| filename := "in.pdf"; page_range := Some "4,1-2";
              keep := true; angle := 0 |}
           [] (document 9) {[0; 1; 3]} [EvRead "in.pdf"]).
  - vm_compute. reflexivity.
  - vm_compute. reflexivity.
  - vm_compute. reflexivity.
Defined.

Lemma unknown_flag_raises_NameError_witness :
  run slot_order two_files ["a.pdf"; "-x"; "1"; "b.pdf"]
  = ([EvExists "combined.pdf"; EvIsFile "a.pdf"], Uncaught (NameError "current")).
Proof.
  apply (proj2 (@unknown_flag_raises_NameError slot_order (pdf_lib two_files)
                  (file_system two_files)) "a.pdf" "-x" "1" ["b.pdf"]).
  all: try (vm_compute; reflexivity).
  all: by_compute.
Defined.

Lemma no_write_unless_all_operations_succeed_witness :
  @writes (pdf_lib two_files)
    (run slot_order two_files ["a.pdf"; "b.pdf"; "-k"; "7"; "-o"; "out.pdf"]).1 = [].
Proof.
  apply (proj1 (@no_write_unless_all_operations_succeed slot_order
                  (pdf_lib two_files) (file_system two_files)
                  ["a.pdf"; "b.pdf"; "-k"; "7"; "-o"; "out.pdf"])
           "out.pdf" ["a.pdf"; "b.pdf"; "-k"; "7"]
           [EvIsFile "a.pdf"; EvIsFile "b.pdf"]
           [new_operation "a.pdf";
            {| filename := "b.pdf"; page_range := Some "7"; keep := true; angle := 0 |}]).
  - vm_compute. reflexivity.
  - vm_compute. reflexivity.
  - right. left. exists (document 3). split; [vm_compute; reflexivity|].
    right. exists {[6]}, 6, (IndexError "sequence index out of range").
    split; [vm_compute; reflexivity|]. split; [by_compute|vm_compute; reflexivity].
Defined.

(** C10, as the claim states it, fails: the final token is -o with no
    value after it, and the run reports the conflict of -o with
    --output; or an earlier -o has a value, and extraction returns it. *)
Lemma trailing_output_flag_without_IndexError :
  parse_output_file ["a.pdf"; "--output"; "x"; "-o"]
    = Raise (ValueError BothOutputFlags)
  ∧ run slot_order two_files ["a.pdf"; "--output"; "x"; "-o"]
    = ([EvPrint (MsgException BothOutputFlags)], Returned)
  ∧ parse_output_file ["a.pdf"; "-o"; "x"; "-o"] = Ok ("x", ["a.pdf"; "-o"]).
Proof.
  split; [vm_compute; reflexivity|]. split; vm_compute; reflexivity.
Qed.

Lemma lone_trailing_output_flag_IndexError_witness :
  parse_output_file (["a.pdf"; "b.pdf"] ++ ["-o"])
    = Raise (IndexError "pop index out of range")
  ∧ run slot_order two_files (["a.pdf"; "b.pdf"] ++ ["-o"])
    = ([], Uncaught (IndexError "pop index out of range")).
Proof.
  destruct (@lone_trailing_output_flag_IndexError slot_order (pdf_lib two_files)
              (file_system two_files) ["a.pdf"; "b.pdf"] "-o") as [Hpop Hmain].
  - left. reflexivity.
  - by_compute.
  - by_compute.
  - split; [exact Hpop|]. apply Hmain; by_compute.
Defined.

(** The scenarios of the specification. *)
Example scenario_two_inputs :
  run slot_order two_files ["a.pdf"; "b.pdf"]
  = ([EvExists "combined.pdf"; EvIsFile "a.pdf"; EvIsFile "b.pdf";
      EvRead "a.pdf"; EvRead "b.pdf";
      EvWrite "combined.pdf" [(1, 0); (2, 0); (3, 0); (1, 0); (2, 0); (3, 0)];
      EvPrint (MsgSaved "combined.pdf")], Returned).
Proof. vm_compute. reflexivity. Qed.

Example scenario_angle :
  run slot_order two_files ["a.pdf"; "--keep"; "1-2"; "--angle"; "90"; "b.pdf"; "-r"; "1-2"]
  = ([EvExists "combined.pdf"; EvIsFile "a.pdf"; EvIsFile "b.pdf";
      EvRead "a.pdf"; EvRead "b.pdf";
      EvWrite "combined.pdf" [(1, 90); (2, 90); (3, 0)];
      EvPrint (MsgSaved "combined.pdf")], Returned).
Proof. vm_compute. reflexivity. Qed.

(** With files named "-o" and "out.pdf" at hand, the run that gives both
    output flags, -o first, goes all the way to writing "x.pdf". *)
Example scenario_conflict_missed :
  run slot_order odd_files ["-o"; "out.pdf"; "--output"; "x.pdf"]
  = ([EvExists "x.pdf"; EvIsFile "-o"; EvIsFile "out.pdf";
      EvRead "-o"; EvRead "out.pdf";
      EvWrite "x.pdf" [(1, 0); (1, 0); (2, 0)];
      EvPrint (MsgSaved "x.pdf")], Returned).
Proof. vm_compute. reflexivity. Qed.

(** The same keep spec as above, on an interpreter that iterates over a
    set in ascending order. *)
Example scenario_keep_ascending_iteration :
  run ascending_order one_file ["in.pdf"; "--keep"; "9,2"]
  = ([EvExists "combined.pdf"; EvIsFile "in.pdf"; EvRead "in.pdf";
      EvWrite "combined.pdf" [(2, 0); (9, 0)];
      EvPrint (MsgSaved "combined.pdf")], Returned).
Proof. vm_compute. reflexivity. Qed.

Example scenario_range_error :
  run slot_order two_files ["a.pdf"; "b.pdf"; "-k"; "5-3"]
  = ([EvExists "combined.pdf"; EvIsFile "a.pdf"; EvIsFile "b.pdf";
      EvRead "a.pdf"; EvRead "b.pdf"; EvPrint (MsgError (InvalidRange "5-3"))],
     Returned).
Proof. vm_compute. reflexivity. Qed.

End Runs.

Example parse_page_range_ex1 :
  parse_page_range "1-2,4" true = Ok ({[0; 1; 3]} : gset Z).
Proof. vm_compute. reflexivity. Qed.

Example parse_output_file_ex1 :
  parse_output_file ["a.pdf"; "-o"; "out.pdf"; "b.pdf"] = Ok ("out.pdf", ["a.pdf"; "b.pdf"]).
Proof. vm_compute. reflexivity. Qed.

Example parse_output_file_ex2 :
  parse_output_file ["-o"; "out.pdf"; "--output"; "x.pdf"] = Ok ("x.pdf", ["-o"; "out.pdf"]).
Proof. vm_compute. reflexivity. Qed.

Example parse_output_file_ex3 :
  parse_output_file ["a.pdf"; "-o"] = Raise (IndexError "pop index out of range").
Proof. vm_compute. reflexivity. Qed.

(** * Further properties *)

(** ** The range parser *)

Lemma split_pieces_no_sep sep s p :
  p ∈ Str.split sep s → sep ∉ list_ascii_of_string p.
Proof.
  revert p. induction s as [|c rest IH]; intros p; simpl.
  - intros ->%list_elem_of_singleton. apply not_elem_of_nil.
  - destruct (Ascii.eqb_spec c sep) as [->|Hne].
    + intros [->|Hin]%elem_of_cons; [apply not_elem_of_nil|by apply IH].
    + destruct (Str.split sep rest) as [|piece pieces] eqn:Hsplit.
      * intros ->%list_elem_of_singleton. simpl.
        apply not_elem_of_cons. split; [congruence|apply not_elem_of_nil].
      * intros [->|Hin]%elem_of_cons.
        -- simpl. apply not_elem_of_cons. split; [congruence|].
           apply IH. left.
        -- apply IH. by right.
Qed.

Lemma lstrip_elem_of l x : x ∈ Str.lstrip l → x ∈ l.
Proof.
  induction l as [|c rest IH]; simpl; [done|].
  destruct (Str.is_space c); [|done]. intros Hx. right. by apply IH.
Qed.

Lemma strip_elem_of l x : x ∈ Str.strip l → x ∈ l.
Proof.
  unfold Str.strip. rewrite list_elem_of_In, <- in_rev, <- list_elem_of_In.
  intros Hx%lstrip_elem_of. apply lstrip_elem_of.
  by rewrite list_elem_of_In, in_rev, <- list_elem_of_In.
Qed.

Lemma digit_of_nonneg c d : Str.digit_of c = Some d → 0 ≤ d.
Proof.
  unfold Str.digit_of.
  destruct (andb _ _) eqn:Hrange; [|discriminate].
  apply andb_true_iff in Hrange as [Hlo%Z.leb_le _]. intros [= <-]. lia.
Qed.

Lemma digits_nonneg l acc after_digit v :
  Str.digits acc after_digit l = Some v → 0 ≤ acc → 0 ≤ v.
Proof.
  revert acc after_digit. induction l as [|c rest IH]; intros acc after_digit; simpl.
  - destruct after_digit; [|discriminate]. intros [= <-]. done.
  - destruct (Ascii.eqb c "_").
    + destruct after_digit; [|discriminate]. apply IH.
    + destruct (Str.digit_of c) as [d|] eqn:Hd; [|discriminate].
      intros Hv Hacc. apply (IH _ _ Hv). apply digit_of_nonneg in Hd. lia.
Qed.

(** A string without a dash is never read as a negative integer. *)
Lemma int_opt_nonneg s v :
  Str.int_opt s = Some v → "-"%char ∉ list_ascii_of_string s → 0 ≤ v.
Proof.
  unfold Str.int_opt. intros Hint Hdash.
  destruct (Str.strip (list_ascii_of_string s)) as [|c rest] eqn:Hstrip;
    [discriminate|].
  assert (Hc : c ∈ list_ascii_of_string s).
  { apply strip_elem_of. rewrite Hstrip. left. }
  destruct (Ascii.eqb c "+"); [by eapply digits_nonneg|].
  destruct (Ascii.eqb_spec c "-") as [->|_]; [done|].
  by eapply digits_nonneg.
Qed.

Lemma spec_token_yields_nonneg r v : spec_token_yields r v → 0 ≤ v.
Proof.
  unfold spec_token_yields.
  destruct (Str.split "-" r) as [|a [|b [|c l]]] eqn:Hsplit; try done.
  - intros Hv. apply (int_opt_nonneg a); [done|].
    apply (split_pieces_no_sep "-" r). rewrite Hsplit. left.
  - intros (LOW & HIGH & Hlo & _ & Hv).
    assert (0 ≤ LOW); [|lia]. apply (int_opt_nonneg a); [done|].
    apply (split_pieces_no_sep "-" r). rewrite Hsplit. left.
Qed.

(** X1: the dash always separates, so no token is read as a negative
    number: every page of a parsed range is at least 0 in the
    one-indexed form and at least -1 in the zero-indexed form. *)
Theorem parse_page_range_lower_bound s zero_index pages x :
  parse_page_range s zero_index = Ok pages →
  x ∈ pages → (if zero_index then -1 else 0) ≤ x.
Proof.
  intros Hparse Hx.
  apply (parse_page_range_Ok _ _ _ Hparse) in Hx as (r & _ & Hyields).
  apply spec_token_yields_nonneg in Hyields. destruct zero_index; lia.
Qed.

Lemma parse_page_range_lower_bound_witness :
  parse_page_range "0,3" true = Ok {[-1; 2]}
  ∧ -1 ∈ ({[-1; 2]} : gset Z) ∧ -1 ≤ -1.
Proof.
  split; [vm_compute; reflexivity|]. split; [by_compute|].
  apply (parse_page_range_lower_bound "0,3" true {[-1; 2]} (-1)).
  - vm_compute. reflexivity.
  - by_compute.
Defined.

Lemma parse_page_range_loop_is_ok s ranges pages :
  is_ok (parse_page_range_loop s ranges pages) = true
  ↔ Forall spec_token_wellformed ranges.
Proof.
  revert pages. induction ranges as [|r rest IH]; intros pages; simpl.
  - split; [constructor|done].
  - rewrite Forall_cons, <- (parse_page_range_step_wellformed s r pages).
    destruct (parse_page_range_step s r pages) as [mid|e]; simpl.
    + rewrite IH. tauto.
    + split; [done|]. by intros [? _].
Qed.

Lemma parse_page_range_Ok_iff s zero_index :
  (∃ pages, parse_page_range s zero_index = Ok pages)
  ↔ Forall spec_token_wellformed (Str.split "," s).
Proof.
  rewrite <- (parse_page_range_loop_is_ok s _ ∅). unfold parse_page_range.
  destruct (parse_page_range_loop s (Str.split "," s) ∅) as [raw|e]; simpl.
  - split; [done|]. intros _. destruct zero_index; by eexists.
  - split; [by intros [? ?]|done].
Qed.

(** X2: the parser returns a set exactly when every comma-separated
    token is well-formed (a single integer, or a pair LOW-HIGH with
    LOW <= HIGH); the indexing mode plays no part in that. *)
Theorem parse_page_range_succeeds_iff s zero_index :
  (∃ pages, parse_page_range s zero_index = Ok pages)
  ↔ Forall spec_token_wellformed (Str.split "," s).
Proof. apply parse_page_range_Ok_iff. Qed.

(** X3: the order of the comma-separated tokens does not matter to the
    result: two specs whose tokens are a rearrangement of one another
    parse to the same set. *)
Theorem parse_page_range_token_order s1 s2 zero_index pages :
  Str.split "," s1 ≡ₚ Str.split "," s2 →
  parse_page_range s1 zero_index = Ok pages →
  parse_page_range s2 zero_index = Ok pages.
Proof.
  intros Hperm Hparse.
  destruct (proj2 (parse_page_range_Ok_iff s2 zero_index)) as [pages' Hparse'].
  { rewrite <- Hperm. apply (parse_page_range_Ok_iff s1 zero_index).
    by exists pages. }
  rewrite Hparse'. f_equal. apply set_eq. intros x.
  rewrite (parse_page_range_Ok _ _ _ Hparse), (parse_page_range_Ok _ _ _ Hparse').
  by setoid_rewrite Hperm.
Qed.

Lemma parse_page_range_token_order_witness :
  parse_page_range "1-2,4" true = Ok {[0; 1; 3]}.
Proof.
  apply (parse_page_range_token_order "4,1-2" "1-2,4" true).
  - vm_compute. apply perm_swap.
  - vm_compute. reflexivity.
Defined.

Lemma parse_page_range_step_many_dashes s r pages :
  (3 ≤ length (Str.split "-" r))%nat →
  parse_page_range_step s r pages = Raise (ValueError (FailedToParse s)).
Proof.
  unfold parse_page_range_step.
  destruct (Str.split "-" r) as [|a [|b [|c l]]]; simpl; try lia. done.
Qed.

(** X4: a token with more than one dash, every token before it being
    well-formed, makes the parser raise the failed-to-parse error, which
    names the whole range spec and not the token. *)
Theorem parse_page_range_many_dashes s zero_index pre r post :
  Str.split "," s = pre ++ r :: post →
  (3 ≤ length (Str.split "-" r))%nat →
  Forall spec_token_wellformed pre →
  parse_page_range s zero_index = Raise (ValueError (FailedToParse s)).
Proof.
  intros Hsplit Hdashes Hpre. unfold parse_page_range. rewrite Hsplit.
  rewrite (parse_page_range_loop_app s pre r post ∅ (ValueError (FailedToParse s))).
  - done.
  - eapply Forall_impl; [exact Hpre|]. intros r' Hwf pgs.
    by apply parse_page_range_step_wellformed.
  - intros pgs. by apply parse_page_range_step_many_dashes.
Qed.

Lemma parse_page_range_many_dashes_witness :
  parse_page_range "4,1-2-3" true = Raise (ValueError (FailedToParse "4,1-2-3")).
Proof.
  apply (parse_page_range_many_dashes "4,1-2-3" true ["4"] "1-2-3" []).
  - vm_compute. reflexivity.
  - vm_compute. lia.
  - constructor; [|constructor]. exists 4. vm_compute. reflexivity.
Defined.

(** X5: an empty token (an empty spec, or a leading, trailing or doubled
    comma) always makes the parser raise. *)
Theorem parse_page_range_empty_token s zero_index :
  EmptyString ∈ Str.split "," s →
  ∃ e, parse_page_range s zero_index = Raise e.
Proof.
  intros Hin. unfold parse_page_range.
  destruct (parse_page_range_loop_fails s (Str.split "," s) EmptyString ∅ Hin)
    as [e He]; [done|].
  exists e. by rewrite He.
Qed.

Lemma parse_page_range_empty_token_witness :
  ∃ e, parse_page_range "1-2," true = Raise e.
Proof.
  apply (parse_page_range_empty_token "1-2," true). by_compute.
Defined.

(** ** pages_to_keep *)

Lemma parse_page_range_step_raises s r pages e :
  parse_page_range_step s r pages = Raise e → ∃ ve, e = ValueError ve.
Proof.
  unfold parse_page_range_step, Str.int.
  destruct (Str.split "-" r) as [|a [|b [|c l]]]; simpl.
  - intros [= <-]. by eexists.
  - destruct (Str.int_opt a); simpl; [discriminate|]. intros [= <-]. by eexists.
  - destruct (Str.int_opt a); simpl; [|intros [= <-]; by eexists].
    destruct (Str.int_opt b); simpl; [|intros [= <-]; by eexists].
    destruct (_ <? _); [|discriminate]. intros [= <-]. by eexists.
  - intros [= <-]. by eexists.
Qed.

Lemma parse_page_range_raises s zero_index e :
  parse_page_range s zero_index = Raise e → ∃ ve, e = ValueError ve.
Proof.
  unfold parse_page_range.
  assert (Hloop : ∀ ranges pages,
             parse_page_range_loop s ranges pages = Raise e → ∃ ve, e = ValueError ve).
  { induction ranges as [|r rest IH]; intros pages; simpl; [discriminate|].
    destruct (parse_page_range_step s r pages) as [mid|e'] eqn:Hstep; simpl.
    - apply IH.
    - intros [= <-]. by eapply parse_page_range_step_raises. }
  destruct (parse_page_range_loop s (Str.split "," s) ∅) as [raw|e'] eqn:Hraw; simpl.
  - destruct zero_index; discriminate.
  - intros [= <-]. by eapply Hloop.
Qed.

(** X6: pages_to_keep raises only a ValueError, and only the one its
    range spec makes the parser raise; whether and how it raises depends
    neither on the page count nor on keep. *)
Theorem pages_to_keep_raises op N e :
  pages_to_keep op N = Raise e →
  (∃ ve, e = ValueError ve)
  ∧ (∃ s, page_range op = Some s ∧ parse_page_range s true = Raise e)
  ∧ ∀ N' k, pages_to_keep {| filename := filename op; page_range := page_range op;
                             keep := k; angle := angle op |} N' = Raise e.
Proof.
  unfold pages_to_keep. destruct (page_range op) as [s|]; [|discriminate]. simpl.
  destruct (parse_page_range s true) as [pages|e'] eqn:Hparse; simpl.
  - destruct (keep op); discriminate.
  - intros [= <-]. split; [by eapply parse_page_range_raises|].
    split; [by exists s|done].
Qed.

Lemma pages_to_keep_raises_witness :
  (∃ ve, ValueError (InvalidRange "5-3") = ValueError ve)
  ∧ pages_to_keep {| filename := "a.pdf"; page_range := Some "5-3";
                     keep := false; angle := 90 |} 0
    = Raise (ValueError (InvalidRange "5-3")).
Proof.
  destruct (pages_to_keep_raises
              {| filename := "a.pdf"; page_range := Some "5-3";
                 keep := true; angle := 90 |} 7 (ValueError (InvalidRange "5-3")))
    as (Hve & _ & Hany).
  - vm_compute. reflexivity.
  - split; [exact Hve|]. apply (Hany 0 false).
Defined.

(** X7: for one range spec, what keep selects and what remove selects
    never overlap, and every page of the document is in exactly one of
    the two. *)
Theorem keep_remove_partition f s a N kept :
  pages_to_keep {| filename := f; page_range := Some s; keep := true; angle := a |} N
    = Ok kept →
  ∃ left_over,
    pages_to_keep {| filename := f; page_range := Some s; keep := false; angle := a |} N
      = Ok left_over
    ∧ kept ∩ left_over = ∅
    ∧ ∀ x, 0 ≤ x < N → (x ∈ left_over ↔ x ∉ kept).
Proof.
  unfold pages_to_keep. simpl.
  destruct (parse_page_range s true) as [pages|e]; simpl; [|discriminate].
  intros [= <-]. exists (set_range 0 N ∖ pages). split; [done|]. split.
  - apply set_eq. intros x.
    rewrite elem_of_intersection, elem_of_difference, elem_of_empty. tauto.
  - intros x Hx. rewrite elem_of_difference, elem_of_set_range. tauto.
Qed.

Lemma keep_remove_partition_witness :
  ∃ left_over,
    pages_to_keep {| filename := "a.pdf"; page_range := Some "1-2,9";
                     keep := false; angle := 0 |} 4 = Ok left_over
    ∧ {[0; 1; 8]} ∩ left_over = ∅
    ∧ ∀ x, 0 ≤ x < 4 → (x ∈ left_over ↔ x ∉ ({[0; 1; 8]} : gset Z)).
Proof.
  apply (keep_remove_partition "a.pdf" "1-2,9" 0 4 {[0; 1; 8]}).
  vm_compute. reflexivity.
Defined.

(** ** parse_output_file *)

Lemma list_pop_middle pre x post :
  list_pop (pre ++ x :: post) (Z.of_nat (length pre)) = Ok (x, pre ++ post).
Proof.
  unfold list_pop. rewrite length_app. simpl.
  destruct (Z.eqb_spec (Z.of_nat (length pre + S (length post))) 0); [lia|].
  destruct (Z.ltb_spec (Z.of_nat (length pre)) 0); [lia|].
  destruct (Z.leb_spec 0 (Z.of_nat (length pre))); [|lia].
  rewrite Nat2Z.id, list_lookup_middle by done. by rewrite delete_middle.
Qed.

Lemma list_pop_Ok args i x args' :
  list_pop args i = Ok (x, args') →
  x ∈ args ∧ args' `sublist_of` args ∧ length args = S (length args').
Proof.
  unfold list_pop. destruct (_ =? 0); [discriminate|].
  set (j := if i <? 0 then _ else _).
  destruct (0 <=? j); [|discriminate].
  destruct (args !! Z.to_nat j) as [y|] eqn:Hlookup; [|discriminate].
  intros [= <- <-]. split; [by eapply list_elem_of_lookup_2|].
  split; [apply sublist_delete|].
  rewrite length_delete by done. apply lookup_lt_Some in Hlookup. lia.
Qed.

Lemma list_pop_Ok_bound args i x args' :
  list_pop args i = Ok (x, args') → 0 ≤ i → i < Z.of_nat (length args).
Proof.
  unfold list_pop. destruct (_ =? 0); [discriminate|].
  destruct (Z.ltb_spec i 0); [lia|].
  destruct (0 <=? i); [|discriminate].
  destruct (args !! Z.to_nat i) as [y|] eqn:Hlookup; [|discriminate].
  intros _ Hi. apply lookup_lt_Some in Hlookup. lia.
Qed.

Lemma index_from_first x pre rest i :
  x ∉ pre → index_from x (pre ++ x :: rest) i = i + Z.of_nat (length pre).
Proof.
  revert i. induction pre as [|a pre IH]; intros i Hx; simpl.
  - rewrite String.eqb_refl. lia.
  - apply not_elem_of_cons in Hx as [Hne Hx].
    destruct (String.eqb_spec a x) as [->|_]; [done|]. rewrite IH by done. lia.
Qed.

Lemma index_from_present x args i : x ∈ args → i ≤ index_from x args i.
Proof.
  revert i. induction args as [|a rest IH]; intros i Hx; simpl.
  - by apply elem_of_nil in Hx.
  - destruct (String.eqb_spec a x) as [->|Hne]; [lia|].
    apply elem_of_cons in Hx as [->|Hx]; [done|]. specialize (IH (i + 1) Hx). lia.
Qed.

Lemma index_from_range x args i :
  0 ≤ i → (index_from x args i = -1
           ∨ i ≤ index_from x args i < i + Z.of_nat (length args)).
Proof.
  revert i. induction args as [|a rest IH]; intros i Hi; simpl; [by left|].
  destruct (String.eqb a x); [right; lia|].
  destruct (IH (i + 1)) as [->|?]; [lia|by left|right; lia].
Qed.

(** X8: the default output name is returned, and the argument list left
    as it is, exactly when neither -o nor --output is in the list. *)
Theorem parse_output_file_default_iff args :
  ("-o" ∉ args) ∧ "--output" ∉ args
  ↔ parse_output_file args = Ok ("combined.pdf", args).
Proof.
  split; [intros [Ho Houtput]; by apply parse_output_file_default|].
  unfold parse_output_file, index_or_minus1. destruct (andb _ _); [discriminate|].
  destruct (Z.eqb_spec (Z.max (index_from "-o" args 0) (index_from "--output" args 0)) (-1))
    as [Hmax|_].
  - intros _. split; intros Hin%(index_from_present _ _ 0); lia.
  - destruct (list_pop args _) as [[outfile args1]|e] eqn:Hpop1; simpl; [|discriminate].
    destruct (list_pop args1 _) as [[x args2]|e] eqn:Hpop2; simpl; [|discriminate].
    intros [= _ ->]. apply list_pop_Ok in Hpop1 as (_ & _ & Hlen1).
    apply list_pop_Ok in Hpop2 as (_ & _ & Hlen2). lia.
Qed.

(** X9: what output-file extraction returns is a sub-sequence of the
    argument list (nothing added, nothing reordered): the list itself
    with the default name, or the list less two tokens, the output name
    being a token of the list.  The only failures are the conflict of the
    two flags and the pop past the end of the list; the second pop, of
    the flag itself, never fails. *)
Theorem parse_output_file_outcomes args :
  match parse_output_file args with
  | Ok (outfile, args') =>
      args' `sublist_of` args
      ∧ ((outfile = "combined.pdf" ∧ args' = args)
         ∨ (outfile ∈ args ∧ length args = S (S (length args'))))
  | Raise e =>
      e = ValueError BothOutputFlags ∨ e = IndexError "pop index out of range"
  end.
Proof.
  unfold parse_output_file, index_or_minus1.
  destruct (andb _ _); [by left|].
  set (idx := Z.max _ _).
  assert (Hidx : idx = -1 ∨ 0 ≤ idx < Z.of_nat (length args)).
  { subst idx.
    destruct (index_from_range "-o" args 0 ltac:(lia)),
             (index_from_range "--output" args 0 ltac:(lia)); lia. }
  destruct (Z.eqb_spec idx (-1)) as [_|Hne]; [split; [done|by left]|].
  destruct Hidx as [?|Hidx]; [done|].
  destruct (list_pop args (idx + 1)) as [[outfile args1]|e] eqn:Hpop1; simpl.
  - pose proof Hpop1 as (Hin & Hsub1 & Hlen1)%list_pop_Ok.
    pose proof (list_pop_Ok_bound _ _ _ _ Hpop1 ltac:(lia)) as Hbound.
    destruct (lookup_lt_is_Some_2 args1 (Z.to_nat idx) ltac:(lia)) as [flag Hflag].
    assert (Hpop2 : list_pop args1 idx = Ok (flag, delete (Z.to_nat idx) args1)).
    { unfold list_pop.
      destruct (Z.eqb_spec (Z.of_nat (length args1)) 0); [lia|].
      destruct (Z.ltb_spec idx 0); [lia|].
      destruct (Z.leb_spec 0 idx); [|lia]. by rewrite Hflag. }
    rewrite Hpop2. simpl. apply list_pop_Ok in Hpop2 as (_ & Hsub2 & Hlen2).
    split; [by etrans|]. right. split; [done|lia].
  - right. revert Hpop1. unfold list_pop.
    destruct (Z.eqb_spec (Z.of_nat (length args)) 0); [lia|].
    destruct (Z.ltb_spec (idx + 1) 0); [lia|].
    destruct (if 0 <=? idx + 1 then _ else _); [discriminate|]. by intros [= <-].
Qed.

(** X10: when an output flag first occurs before its value, with
    neither flag earlier in the list and the other flag nowhere after,
    extraction returns that value and the list without the flag and the
    value, the other tokens in their order. *)
Theorem parse_output_file_extracts pre flag value post :
  "-o" ∉ pre → "--output" ∉ pre →
  (flag = "-o" ∧ "--output" ∉ value :: post)
  ∨ (flag = "--output" ∧ "-o" ∉ value :: post) →
  parse_output_file (pre ++ flag :: value :: post) = Ok (value, pre ++ post).
Proof.
  intros Ho Houtput Hflag. unfold parse_output_file, index_or_minus1.
  assert (Hidx : ∃ a b, index_from "-o" (pre ++ flag :: value :: post) 0 = a
                        ∧ index_from "--output" (pre ++ flag :: value :: post) 0 = b
                        ∧ (a = -1 ∨ b = -1)
                        ∧ Z.max a b = Z.of_nat (length pre)).
  { destruct Hflag as [[-> Hother] | [-> Hother]].
    - exists (Z.of_nat (length pre)), (-1). split; [by rewrite index_from_first|].
      split; [|split; [by right|lia]].
      apply index_from_absent. rewrite elem_of_app, elem_of_cons.
      intros [?|[?|?]]; done.
    - exists (-1), (Z.of_nat (length pre)). split.
      { apply index_from_absent. rewrite elem_of_app, elem_of_cons.
        intros [?|[?|?]]; done. }
      split; [by rewrite index_from_first|]. split; [by left|lia]. }
  destruct Hidx as (a & b & -> & -> & Hneg & ->).
  assert ((0 <? a) && (0 <? b) = false) as ->.
  { destruct Hneg as [-> | ->]; [done|apply andb_false_r]. }
  destruct (Z.eqb_spec (Z.of_nat (length pre)) (-1)); [lia|].
  replace (pre ++ flag :: value :: post) with ((pre ++ [flag]) ++ value :: post)
    by (by rewrite <- app_assoc).
  replace (Z.of_nat (length pre) + 1) with (Z.of_nat (length (pre ++ [flag])))
    by (rewrite length_app; simpl; lia).
  rewrite list_pop_middle. simpl. rewrite <- app_assoc. simpl.
  by rewrite list_pop_middle.
Qed.

Lemma parse_output_file_extracts_witness :
  parse_output_file (["a.pdf"; "-k"; "1"] ++ "--output" :: "out.pdf" :: ["b.pdf"; "--output"])
  = Ok ("out.pdf", ["a.pdf"; "-k"; "1"] ++ ["b.pdf"; "--output"]).
Proof.
  apply (parse_output_file_extracts ["a.pdf"; "-k"; "1"] "--output" "out.pdf"
           ["b.pdf"; "--output"]).
  - by_compute.
  - by_compute.
  - right. split; [reflexivity|by_compute].
Defined.

(** ** Grouping, the pipeline and main *)

Section MoreMainProperties.
Context {order : PySetOrder} {lib : PdfLib} {fs : FileSystem}.

Local Abbreviation M := (eff page).

Lemma apply_flag_filename operation cmd value t operation' :
  apply_flag operation cmd value = (t, Next operation') →
  filename operation' = filename operation.
Proof.
  unfold apply_flag.
  repeat match goal with |- context [if ?b then _ else _] => destruct b end;
    try (by intros [= <- <-]); try discriminate.
  rewrite eff_bind_call. destruct (Str.int value); [|discriminate]. by intros [= <- <-].
Qed.

(** The inner loop ends [main], or goes on with an operation on the same
    file and with what is left of the queue. *)
Lemma parse_flags_suffix {A} (after : Operation → list string → M A) operation queue :
  (∃ x, parse_flags after operation queue = ([], Stop x))
  ∨ (∃ operation' queue', queue' `suffix_of` queue
       ∧ filename operation' = filename operation
       ∧ parse_flags after operation queue = after operation' queue').
Proof.
  remember (length queue) as n eqn:Hn.
  assert (Hle : (length queue ≤ n)%nat) by lia. clear Hn.
  revert operation queue Hle.
  induction n as [n IH] using lt_wf_ind. intros operation queue Hle.
  destruct queue as [|cmd [|value queue2]]; simpl.
  - right. by exists operation, [].
  - destruct (Str.startswith_dash cmd); [left; by eexists|].
    right. by exists operation, [cmd].
  - destruct (Str.startswith_dash cmd).
    + pose proof (apply_flag_trace operation cmd value) as Htrace.
      destruct (apply_flag operation cmd value) as [t [operation'|x]] eqn:Hflag;
        simpl in Htrace; subst t.
      * rewrite eff_bind_nil. apply apply_flag_filename in Hflag.
        destruct (IH (length queue2) ltac:(simpl in *; lia) operation' queue2
                    ltac:(lia)) as [Hstop|(op2 & q2 & Hsuffix & Hname & Heq)].
        -- by left.
        -- right. exists op2, q2. split; [by do 2 apply suffix_cons_r|].
           split; [congruence|done].
      * left. by exists x.
    + right. by exists operation, (cmd :: value :: queue2).
Qed.

Lemma parse_operations_Next operations0 queue t operations :
  parse_operations operations0 queue = (t, Next operations) →
  ∃ new, operations = operations0 ++ new
    ∧ Forall (λ op, path_isfile (filename op) = true) new
    ∧ t = (λ op, EvIsFile (filename op)) <$> new
    ∧ (filename <$> new) `sublist_of` queue.
Proof.
  remember (length queue) as n eqn:Hn.
  assert (Hle : (length queue ≤ n)%nat) by lia. clear Hn.
  revert operations0 queue t Hle.
  induction n as [n IH] using lt_wf_ind. intros operations0 queue t Hle.
  destruct queue as [|last_file queue1].
  - intros [= <- <-]. exists []. by rewrite app_nil_r.
  - rewrite parse_operations_cons, os_path_isfile_bind.
    destruct (path_isfile last_file) eqn:Hisfile; cbn [negb].
    2:{ rewrite eff_bind_emit. discriminate. }
    destruct (parse_flags_suffix
                (λ operation queue2, parse_operations (operations0 ++ [operation]) queue2)
                (new_operation last_file) queue1)
      as [[x ->]|(op' & q' & Hsuffix & Hname & ->)]; [discriminate|].
    destruct (parse_operations (operations0 ++ [op']) q') as [t' r] eqn:Hrest.
    intros [= <- ->].
    apply (IH (length q')) in Hrest
      as (new & -> & Hfiles & -> & Hsub).
    + exists (op' :: new). rewrite <- app_assoc. split; [done|].
      split; [constructor; [by rewrite Hname|done]|].
      split; [by rewrite fmap_cons, Hname|].
      rewrite fmap_cons, Hname. apply sublist_skip.
      destruct Hsuffix as [k ->]. by apply sublist_inserts_l.
    + apply suffix_length in Hsuffix. simpl in *. lia.
    + lia.
Qed.

(** X11: when grouping succeeds, every operation names a token of the
    argument list that [os.path.isfile] accepted, the operations are in
    the order of these tokens, and the only effects of grouping are the
    [isfile] tests, one for each operation. *)
Theorem parse_operations_files operations0 queue t operations :
  parse_operations operations0 queue = (t, Next operations) →
  ∃ new, operations = operations0 ++ new
    ∧ Forall (λ op, path_isfile (filename op) = true) new
    ∧ t = (λ op, EvIsFile (filename op)) <$> new
    ∧ (filename <$> new) `sublist_of` queue.
Proof. apply parse_operations_Next. Qed.

(** Grouping opens no PDF. *)
Lemma parse_operations_no_read operations queue path :
  EvRead path ∉ (parse_operations operations queue).1.
Proof.
  remember (length queue) as n eqn:Hn.
  assert (Hle : (length queue ≤ n)%nat) by lia. clear Hn.
  revert operations queue Hle.
  induction n as [n IH] using lt_wf_ind. intros operations queue Hle.
  destruct queue as [|last_file queue1]; [apply not_elem_of_nil|].
  rewrite parse_operations_cons, os_path_isfile_bind. cbn [fst].
  apply not_elem_of_cons. split; [done|].
  destruct (path_isfile last_file); cbn [negb].
  - destruct (parse_flags_cases
                (λ operation queue2, parse_operations (operations ++ [operation]) queue2)
                (new_operation last_file) queue1)
      as [[x ->]|(op' & q' & Hlen & ->)]; [apply not_elem_of_nil|].
    apply (IH (length q')); simpl in *; lia.
  - rewrite eff_bind_emit. cbn. apply not_elem_of_cons. split; [done|].
    apply not_elem_of_nil.
Qed.

(** X12: a run that goes through the pipeline leaves the pages already
    in the writer as they are and in place, and opens the file of each
    operation once, in the order of the operations. *)
Theorem combine_extends_writer operations writer t writer' :
  combine operations writer = (t, Next writer') →
  writer `prefix_of` writer'
  ∧ t = (λ op, EvRead (filename op)) <$> operations.
Proof.
  revert writer t. induction operations as [|op rest IH]; intros writer t.
  - by intros [= <- <-].
  - rewrite combine_cons, combine_step_eq.
    destruct (PdfReader (filename op)) as [reader|e]; [|discriminate].
    destruct (pages_to_keep op (Z.of_nat (length reader))) as [pages|[]];
      try discriminate.
    destruct (add_pages reader op (set_iter pages) writer) as [t1 [w1|x]] eqn:Hadd;
      [|discriminate].
    apply add_pages_Next in Hadd as (-> & contributed & -> & _). cbn [fst snd].
    destruct (combine rest (writer ++ contributed)) as [t2 r] eqn:Hrest.
    intros [= <- ->]. apply IH in Hrest as [Hprefix ->].
    split; [|done]. etrans; [|exact Hprefix]. by apply prefix_app_r.
Qed.

(** X13: the pipeline over two lists of operations put end to end is the
    pipeline over the first, carried on with the second. *)
Theorem combine_app operations1 operations2 writer :
  combine (operations1 ++ operations2) writer
  = (writer1 ← combine operations1 writer ; combine operations2 writer1).
Proof.
  revert writer. induction operations1 as [|op rest IH]; intros writer.
  - rewrite app_nil_l. cbn [combine]. by rewrite eff_bind_mret.
  - rewrite <- app_comm_cons, !combine_cons.
    destruct (combine_step op writer) as [t [writer'|x]]; [|done].
    rewrite IH. destruct (combine rest writer') as [t' [writer''|x]].
    + rewrite !eff_bind_Next. cbn [fst snd]. rewrite eff_bind_Next.
      by rewrite app_assoc.
    + done.
Qed.

Lemma combine_reads operations writer path :
  EvRead path ∈ (combine operations writer).1 → path ∈ filename <$> operations.
Proof.
  revert writer. induction operations as [|op rest IH]; intros writer.
  - by intros ?%elem_of_nil.
  - rewrite combine_cons, combine_step_eq, fmap_cons.
    destruct (PdfReader (filename op)) as [reader|e].
    2:{ intros [= ->]%list_elem_of_singleton. left. }
    destruct (pages_to_keep op (Z.of_nat (length reader))) as [pages|e].
    2:{ assert (Hhead : ∀ t : list (event page),
                     t = [] ∨ (∃ m, t = [EvPrint m]) →
                     EvRead path ∈ EvRead (filename op) :: t →
                     path ∈ filename op :: (filename <$> rest)).
        { intros t Ht [[= ->]|Hin]%elem_of_cons; [left|].
          destruct Ht as [->|[m ->]]; [by apply elem_of_nil in Hin|].
          by apply list_elem_of_singleton in Hin. }
        destruct e; apply Hhead; first [by left | right; by eexists]. }
    rewrite add_pages_trace.
    destruct (add_pages reader op (set_iter pages) writer) as [t1 [w1|x]]; cbn.
    + intros [[= ->]|Hin]%elem_of_cons; [left|right; by eapply IH].
    + intros [= ->]%list_elem_of_singleton. left.
Qed.

Lemma writes_cons_exists path (t : list (event page)) :
  writes (EvExists path :: t) = writes t.
Proof. reflexivity. Qed.

Lemma main_after_extraction argv outfile args :
  wants_help argv = false →
  parse_output_file argv = Ok (outfile, args) →
  main argv
  = if path_exists outfile
    then ([EvExists outfile; EvPrint (MsgOutputExists outfile)], Returned)
    else match parse_operations [] args with
         | (t0, Stop x) => (EvExists outfile :: t0, x)
         | (t0, Next operations) =>
             match combine operations [] with
             | (t1, Next doc) =>
                 (EvExists outfile :: t0 ++ t1
                    ++ [EvWrite outfile doc; EvPrint (MsgSaved outfile)], Returned)
             | (t1, Stop x) => (EvExists outfile :: t0 ++ t1, x)
             end
         end.
Proof.
  intros Hhelp Hout.
  destruct (path_exists outfile) eqn:Hexists.
  { unfold main, main_body. rewrite Hhelp, Hout.
    cbn [call_except_ValueError]. rewrite eff_bind_mret.
    by rewrite os_path_exists_bind, Hexists. }
  destruct (parse_operations [] args) as [t0 [operations|x]] eqn:Hops.
  { by apply (main_reaches_pipeline argv outfile args). }
  unfold main, main_body. rewrite Hhelp, Hout.
  cbn [call_except_ValueError]. rewrite eff_bind_mret.
  by rewrite os_path_exists_bind, Hexists, Hops.
Qed.

Lemma main_before_extraction argv :
  wants_help argv = true ∨ (∃ e, parse_output_file argv = Raise e) →
  ∃ t x, main argv = (t, x) ∧ ∀ e, e ∈ t → ∃ m, e = EvPrint m.
Proof.
  unfold main, main_body. intros [->|[e He]].
  - do 2 eexists. split; [done|]. intros e [= ->]%list_elem_of_singleton. by eexists.
  - destruct (wants_help argv).
    + do 2 eexists. split; [done|].
      intros e' [= ->]%list_elem_of_singleton. by eexists.
    + rewrite He. destruct e; do 2 eexists; (split; [done|]); intros e' Hin;
        try (by apply elem_of_nil in Hin).
      apply list_elem_of_singleton in Hin as ->. by eexists.
Qed.

(** X14: main never writes over an existing file: the path of every
    write is one that [os.path.exists] reported absent. *)
Theorem main_never_overwrites argv path doc :
  (path, doc) ∈ writes (main argv).1 → path_exists path = false.
Proof.
  intros Hin.
  destruct (wants_help argv) eqn:Hhelp.
  { unfold main, main_body in Hin. rewrite Hhelp in Hin. by apply elem_of_nil in Hin. }
  destruct (parse_output_file argv) as [[outfile args]|e] eqn:Hout.
  2:{ unfold main, main_body in Hin. rewrite Hhelp, Hout in Hin.
      destruct e; by apply elem_of_nil in Hin. }
  rewrite (main_after_extraction argv outfile args) in Hin by done.
  destruct (path_exists outfile) eqn:Hexists; [by apply elem_of_nil in Hin|].
  pose proof (parse_operations_no_write [] args) as Hgroup.
  destruct (parse_operations [] args) as [t0 [operations|x]]; cbn [fst] in *.
  2:{ rewrite writes_cons_exists, Hgroup in Hin. by apply elem_of_nil in Hin. }
  pose proof (combine_no_write operations []) as Hcombine.
  destruct (combine operations []) as [t1 [d|x]]; cbn [fst] in *.
  - rewrite writes_cons_exists, !writes_app, Hgroup, Hcombine in Hin.
    apply list_elem_of_singleton in Hin. by injection Hin as -> ->.
  - rewrite writes_cons_exists, writes_app, Hgroup, Hcombine in Hin.
    by apply elem_of_nil in Hin.
Qed.

(** X15: main opens a PDF only after the output path was found free and
    the whole argument list was grouped with success, and only the file
    of one of the grouped operations, which [os.path.isfile] accepted. *)
Theorem main_reads_only_grouped_files argv path :
  EvRead path ∈ (main argv).1 →
  ∃ outfile args t0 operations,
    parse_output_file argv = Ok (outfile, args)
    ∧ path_exists outfile = false
    ∧ parse_operations [] args = (t0, Next operations)
    ∧ path ∈ filename <$> operations
    ∧ path_isfile path = true.
Proof.
  intros Hin.
  destruct (wants_help argv) eqn:Hhelp.
  { destruct (main_before_extraction argv (or_introl Hhelp)) as (t & x & Hmain & Hprints).
    rewrite Hmain in Hin. by destruct (Hprints _ Hin). }
  destruct (parse_output_file argv) as [[outfile args]|e] eqn:Hout.
  2:{ destruct (main_before_extraction argv (or_intror (ex_intro _ e Hout)))
        as (t & x & Hmain & Hprints).
      rewrite Hmain in Hin. by destruct (Hprints _ Hin). }
  rewrite (main_after_extraction argv outfile args) in Hin by done.
  destruct (path_exists outfile) eqn:Hexists.
  { cbn in Hin. rewrite !elem_of_cons in Hin.
    destruct Hin as [?|[?|Hin]]; [done|done|by apply elem_of_nil in Hin]. }
  pose proof (parse_operations_no_read [] args path) as Hgroup.
  destruct (parse_operations [] args) as [t0 [operations|x]] eqn:Hops; cbn [fst] in *.
  2:{ apply elem_of_cons in Hin as [?|?]; done. }
  exists outfile, args, t0, operations. do 3 (split; [done|]).
  assert (Hpath : path ∈ filename <$> operations).
  { pose proof (combine_reads operations [] path) as Hreads.
    destruct (combine operations []) as [t1 [d|x]]; cbn [fst] in *.
    - apply elem_of_cons in Hin as [?|Hin]; [done|].
      apply elem_of_app in Hin as [?|Hin]; [done|].
      apply elem_of_app in Hin as [?|Hin]; [by apply Hreads|].
      rewrite !elem_of_cons in Hin.
      destruct Hin as [?|[?|Hin]]; [done|done|by apply elem_of_nil in Hin].
    - apply elem_of_cons in Hin as [?|Hin]; [done|].
      apply elem_of_app in Hin as [?|Hin]; [done|by apply Hreads]. }
  split; [done|].
  apply parse_operations_Next in Hops as (new & -> & Hfiles & _).
  rewrite app_nil_l in Hpath. apply list_elem_of_fmap in Hpath as (op & -> & Hop).
  by eapply Forall_forall in Hfiles.
Qed.

Lemma main_grouping argv :
  "-h" ∉ argv → "--help" ∉ argv → "-o" ∉ argv → "--output" ∉ argv →
  argv ≠ [] → path_exists "combined.pdf" = false →
  main argv
  = match parse_operations [] argv with
    | (t0, Stop x) => (EvExists "combined.pdf" :: t0, x)
    | (t0, Next operations) =>
        match combine operations [] with
        | (t1, Next doc) =>
            (EvExists "combined.pdf" :: t0 ++ t1
               ++ [EvWrite "combined.pdf" doc; EvPrint (MsgSaved "combined.pdf")],
             Returned)
        | (t1, Stop x) => (EvExists "combined.pdf" :: t0 ++ t1, x)
        end
    end.
Proof.
  intros Hh Hhelp Ho Houtput Hne Hexists.
  rewrite (main_after_extraction argv "combined.pdf" argv).
  - by rewrite Hexists.
  - by apply wants_help_false.
  - by apply parse_output_file_default.
Qed.

Lemma apply_flag_keep_remove operation cmd value :
  cmd ∈ ["-k"; "--keep"; "-r"; "--remove"] →
  Str.startswith_dash cmd = true
  ∧ apply_flag operation cmd value
    = mret {| filename := filename operation; page_range := Some value;
              keep := bool_decide (cmd ∈ ["-k"; "--keep"]);
              angle := angle operation |}.
Proof.
  rewrite !elem_of_cons. intros [->|[->|[->|[->|Hin]]]];
    [by split..|by apply elem_of_nil in Hin].
Qed.

(** The inner loop on a queue with more tokens put after it: where the
    loop consumed the whole queue it goes on into the added tokens, and
    where it stopped at a token that is no flag it stops there still. *)
Lemma parse_flags_append {A} (after : Operation → list string → M A) operation queue :
  (∃ x, parse_flags after operation queue = ([], Stop x))
  ∨ (∃ operation' queue',
       parse_flags after operation queue = after operation' queue'
       ∧ (length queue' ≤ length queue)%nat
       ∧ ((queue' = []
           ∧ ∀ tail, parse_flags after operation (queue ++ tail)
                     = parse_flags after operation' tail)
          ∨ (queue' ≠ []
             ∧ ∀ tail, parse_flags after operation (queue ++ tail)
                       = after operation' (queue' ++ tail)))).
Proof.
  remember (length queue) as n eqn:Hn.
  assert (Hle : (length queue ≤ n)%nat) by lia. clear Hn.
  revert operation queue Hle.
  induction n as [n IH] using lt_wf_ind. intros operation queue Hle.
  destruct queue as [|cmd [|value queue2]].
  - right. exists operation, []. split; [done|]. split; [done|]. by left.
  - cbn [parse_flags]. destruct (Str.startswith_dash cmd) eqn:Hdash.
    + left. by eexists.
    + right. exists operation, [cmd]. split; [done|]. split; [done|]. right.
      split; [done|]. intros tail. rewrite <- app_comm_cons.
      cbn [parse_flags]. by rewrite Hdash.
  - cbn [parse_flags]. destruct (Str.startswith_dash cmd) eqn:Hdash.
    + pose proof (apply_flag_trace operation cmd value) as Htrace.
      destruct (apply_flag operation cmd value) as [t [operation1|x]] eqn:Hflag;
        simpl in Htrace; subst t.
      * rewrite eff_bind_nil.
        destruct (IH (length queue2) ltac:(simpl in *; lia) operation1 queue2
                    ltac:(lia))
          as [Hstop|(op' & q' & Heq & Hlen & Htails)]; [by left|].
        right. exists op', q'. split; [done|]. split; [simpl in *; lia|].
        destruct Htails as [[-> Htail]|[Hq' Htail]]; [left|right];
          (split; [done|]); intros tail; rewrite <- !app_comm_cons;
          cbn [parse_flags]; rewrite Hdash, Hflag, eff_bind_nil; apply Htail.
      * left. by exists x.
    + right. exists operation, (cmd :: value :: queue2).
      split; [done|]. split; [done|]. right. split; [done|].
      intros tail. rewrite <- !app_comm_cons. cbn [parse_flags]. by rewrite Hdash.
Qed.

(** Grouping a queue with more tokens put after it: when the queue alone
    is grouped with success, the added tokens are first offered to the
    inner loop of its last operation. *)
Lemma parse_operations_continue operations0 queue t operations :
  parse_operations operations0 queue = (t, Next operations) →
  queue ≠ [] →
  ∃ operations1 operation,
    operations = operations1 ++ [operation]
    ∧ ∀ tail,
        parse_operations operations0 (queue ++ tail)
        = (t ++ (parse_flags
                   (λ op queue2, parse_operations (operations1 ++ [op]) queue2)
                   operation tail).1,
           (parse_flags
              (λ op queue2, parse_operations (operations1 ++ [op]) queue2)
              operation tail).2).
Proof.
  remember (length queue) as n eqn:Hn.
  assert (Hle : (length queue ≤ n)%nat) by lia. clear Hn.
  revert operations0 queue t Hle.
  induction n as [n IH] using lt_wf_ind. intros operations0 queue t Hle.
  destruct queue as [|last_file queue1]; [done|]. intros Hgroup _. revert Hgroup.
  rewrite parse_operations_cons, os_path_isfile_bind.
  destruct (path_isfile last_file) eqn:Hisfile; cbn [negb].
  2:{ rewrite eff_bind_emit. discriminate. }
  destruct (parse_flags_append
              (λ operation queue2, parse_operations (operations0 ++ [operation]) queue2)
              (new_operation last_file) queue1)
    as [[x ->]|(op' & q' & -> & Hlen & Htails)]; [discriminate|].
  destruct Htails as [[-> Htail]|[Hq' Htail]].
  - intros [= <- <-]. exists operations0, op'. split; [done|]. intros tail.
    rewrite <- app_comm_cons, parse_operations_cons, os_path_isfile_bind, Hisfile.
    cbn [negb]. by rewrite Htail.
  - destruct (parse_operations (operations0 ++ [op']) q') as [t' r] eqn:Hrest.
    intros [= <- ->].
    destruct (IH (length q') ltac:(simpl in *; lia) (operations0 ++ [op']) q' t'
                ltac:(lia) Hrest Hq') as (operations1 & op & -> & Hcont).
    exists operations1, op. split; [done|]. intros tail.
    rewrite <- app_comm_cons, parse_operations_cons, os_path_isfile_bind, Hisfile.
    cbn [negb]. by rewrite Htail, Hcont.
Qed.

(** X16: a flag left as the last token, after tokens that are grouped
    with success on their own (so that it is not taken as the value of a
    flag before it), ends the run with the uncaught IndexError of the
    empty queue, whatever the flag, known or not; the effects of the run
    are the test of the output path and the [isfile] tests of grouping,
    so nothing is opened or written. *)
Theorem flag_without_value_IndexError argv outfile queue cmd t0 operations :
  wants_help argv = false →
  parse_output_file argv = Ok (outfile, queue ++ [cmd]) →
  path_exists outfile = false →
  queue ≠ [] →
  parse_operations [] queue = (t0, Next operations) →
  Str.startswith_dash cmd = true →
  main argv
  = (EvExists outfile :: t0, Uncaught (IndexError "pop from an empty deque")).
Proof.
  intros Hhelp Hout Hexists Hne Hgroup Hdash.
  rewrite (main_after_extraction argv outfile (queue ++ [cmd])) by done.
  rewrite Hexists.
  destruct (parse_operations_continue _ _ _ _ Hgroup Hne)
    as (operations1 & op & _ & Hcont).
  rewrite Hcont. cbn [parse_flags]. rewrite Hdash. cbn [fst snd].
  by rewrite app_nil_r.
Qed.

(** X17: an -a/--angle value that is not an integer, after tokens that
    are grouped with success on their own, ends the run during grouping
    with the ValueError of [int] uncaught, whatever follows the value;
    the effects of the run are the test of the output path and the
    [isfile] tests up to there, so no PDF is opened. *)
Theorem angle_not_an_integer argv outfile queue cmd value rest t0 operations :
  wants_help argv = false →
  parse_output_file argv = Ok (outfile, queue ++ cmd :: value :: rest) →
  path_exists outfile = false →
  queue ≠ [] →
  parse_operations [] queue = (t0, Next operations) →
  cmd = "-a" ∨ cmd = "--angle" →
  Str.int_opt value = None →
  main argv
  = (EvExists outfile :: t0, Uncaught (ValueError (InvalidLiteral value))).
Proof.
  intros Hhelp Hout Hexists Hne Hgroup Hcmd Hint.
  rewrite (main_after_extraction argv outfile (queue ++ cmd :: value :: rest)) by done.
  rewrite Hexists.
  destruct (parse_operations_continue _ _ _ _ Hgroup Hne)
    as (operations1 & op & _ & Hcont).
  rewrite Hcont. cbn [parse_flags].
  assert (Hflag : Str.startswith_dash cmd = true
                  ∧ apply_flag op cmd value
                    = ([], Stop (Uncaught (ValueError (InvalidLiteral value))))).
  { destruct Hcmd as [-> | ->]; (split; [done|]);
      unfold apply_flag; cbn [String.eqb Ascii.eqb Bool.eqb orb];
      rewrite eff_bind_call; unfold Str.int; by rewrite Hint. }
  destruct Hflag as [-> ->]. cbn [fst snd]. by rewrite app_nil_r.
Qed.



(** X24: the value after a keep or remove flag is taken as it is, without
    being parsed: put after tokens that are grouped with success on
    their own, the pair leaves grouping a success with the same effects,
    whatever the value, and only gives the last operation that value as
    its range spec and the flag's keep. *)
Theorem range_value_not_examined operations0 queue t operations cmd :
  parse_operations operations0 queue = (t, Next operations) →
  queue ≠ [] →
  cmd ∈ ["-k"; "--keep"; "-r"; "--remove"] →
  ∃ operations1 operation,
    operations = operations1 ++ [operation]
    ∧ ∀ value,
        parse_operations operations0 (queue ++ [cmd; value])
        = (t, Next (operations1
                      ++ [ {| filename := filename operation;
                              page_range := Some value;
                              keep := bool_decide (cmd ∈ ["-k"; "--keep"]);
                              angle := angle operation |} ])).
Proof.
  intros Hgroup Hne Hcmd.
  destruct (parse_operations_continue _ _ _ _ Hgroup Hne)
    as (operations1 & op & -> & Hcont).
  exists operations1, op. split; [done|]. intros value.
  rewrite Hcont. cbn [parse_flags].
  destruct (apply_flag_keep_remove op cmd value Hcmd) as [-> ->].
  rewrite eff_bind_mret. cbn [parse_operations]. cbn [mret eff_ret fst snd].
  by rewrite app_nil_r.
Qed.

(** X19: of two keep or remove flags for one file the later one wins:
    the earlier pair leaves no trace in the operation. *)
Theorem later_keep_or_remove_wins {A} (after : Operation → list string → M A)
    operation cmd1 value1 cmd2 value2 rest :
  cmd1 ∈ ["-k"; "--keep"; "-r"; "--remove"] →
  cmd2 ∈ ["-k"; "--keep"; "-r"; "--remove"] →
  parse_flags after operation (cmd1 :: value1 :: cmd2 :: value2 :: rest)
  = parse_flags after operation (cmd2 :: value2 :: rest).
Proof.
  intros Hcmd1 Hcmd2. cbn [parse_flags].
  destruct (apply_flag_keep_remove operation cmd1 value1 Hcmd1) as [-> ->].
  rewrite eff_bind_mret.
  destruct (apply_flag_keep_remove operation cmd2 value2 Hcmd2) as [-> ->].
  set (operation1 := {| filename := _; page_range := Some value1 |}).
  destruct (apply_flag_keep_remove operation1 cmd2 value2 Hcmd2) as [_ ->].
  done.
Qed.

Lemma parse_flags_no_flag {A} (after : Operation → list string → M A) operation queue :
  Forall (λ f, Str.startswith_dash f = false) queue →
  parse_flags after operation queue = after operation queue.
Proof.
  intros Hqueue. destruct Hqueue as [|f queue Hf _]; [done|].
  cbn [parse_flags]. by rewrite Hf.
Qed.

Lemma parse_operations_no_flags operations0 files :
  Forall (λ f, Str.startswith_dash f = false) files →
  Forall (λ f, path_isfile f = true) files →
  parse_operations operations0 files
  = (EvIsFile <$> files, Next (operations0 ++ (new_operation <$> files))).
Proof.
  intros Hplain Hfiles. revert operations0.
  induction Hplain as [|f files Hf Hplain IH]; intros operations0.
  - by rewrite app_nil_r.
  - apply Forall_cons in Hfiles as [Hisfile Hfiles].
    rewrite parse_operations_cons, os_path_isfile_bind, Hisfile. cbn [negb].
    rewrite parse_flags_no_flag by done. rewrite IH by done.
    cbn [fst snd]. by rewrite <- app_assoc.
Qed.

(** X20: a list of existing files with no flag among them is grouped
    into one default operation for each file (all pages, no rotation),
    in the order of the list. *)
Theorem parse_operations_plain_files operations0 files :
  Forall (λ f, Str.startswith_dash f = false) files →
  Forall (λ f, path_isfile f = true) files →
  parse_operations operations0 files
  = (EvIsFile <$> files, Next (operations0 ++ (new_operation <$> files))).
Proof. apply parse_operations_no_flags. Qed.

Lemma add_pages_whole reader (before after_ : list page) writer op :
  angle op = 0 →
  (∀ (i : nat) p, reader !! i = Some p → pages_getitem reader (Z.of_nat i) = Ok p) →
  reader = before ++ after_ →
  add_pages reader op
    ((λ i : nat, Z.of_nat i) <$> seq (length before) (length after_)) writer
  = ([], Next (writer ++ after_)).
Proof.
  intros Hangle Hget. revert before writer.
  induction after_ as [|p rest IH]; intros before writer Hreader.
  - by rewrite app_nil_r.
  - cbn [length seq fmap list_fmap]. rewrite add_pages_cons. unfold fetch.
    rewrite (Hget (length before) p), Hangle by (by rewrite Hreader, list_lookup_middle).
    cbn. replace (S (length before)) with (length (before ++ [p]))
      by (rewrite length_app; simpl; lia).
    rewrite (IH (before ++ [p])) by (by rewrite <- app_assoc).
    by rewrite <- app_assoc.
Qed.

Lemma combine_step_new_operation f reader writer :
  PdfReader f = Ok reader →
  set_iter (set_range 0 (Z.of_nat (length reader)))
    = seqZ 0 (Z.of_nat (length reader)) →
  (∀ (i : nat) p, reader !! i = Some p → pages_getitem reader (Z.of_nat i) = Ok p) →
  combine_step (new_operation f) writer = ([EvRead f], Next (writer ++ reader)).
Proof.
  intros Hreader Hiter Hget. rewrite combine_step_eq. cbn [filename new_operation].
  rewrite Hreader.
  assert (Hall : pages_to_keep (new_operation f) (Z.of_nat (length reader))
                 = Ok (set_range 0 (Z.of_nat (length reader)))) by reflexivity.
  rewrite Hall, Hiter.
  unfold seqZ. rewrite Nat2Z.id.
  rewrite (list_fmap_ext _ (λ i : nat, Z.of_nat i) (seq 0 (length reader)))
    by (intros; simpl; lia).
  by rewrite (add_pages_whole reader [] reader writer).
Qed.

(** X21: when the set of all pages is iterated over in ascending order
    and the library hands out the page at each index in range, an
    operation with no flags appends the whole document, its pages in
    their order and unrotated, after the pages already in the writer. *)
Theorem default_operation_appends_document f reader writer :
  PdfReader f = Ok reader →
  set_iter (set_range 0 (Z.of_nat (length reader)))
    = seqZ 0 (Z.of_nat (length reader)) →
  (∀ (i : nat) p, reader !! i = Some p → pages_getitem reader (Z.of_nat i) = Ok p) →
  combine_step (new_operation f) writer = ([EvRead f], Next (writer ++ reader)).
Proof. apply combine_step_new_operation. Qed.

Lemma combine_new_operations files docs writer :
  Forall2 (λ f reader,
             PdfReader f = Ok reader
             ∧ set_iter (set_range 0 (Z.of_nat (length reader)))
               = seqZ 0 (Z.of_nat (length reader))
             ∧ ∀ (i : nat) p, reader !! i = Some p →
                              pages_getitem reader (Z.of_nat i) = Ok p)
          files docs →
  combine (new_operation <$> files) writer
  = (EvRead <$> files, Next (writer ++ concat docs)).
Proof.
  intros Hdocs. revert writer.
  induction Hdocs as [|f reader files docs (Hreader & Hiter & Hget) _ IH];
    intros writer.
  - by rewrite app_nil_r.
  - rewrite fmap_cons, combine_cons, (combine_step_new_operation f reader) by done.
    rewrite IH. cbn. by rewrite <- app_assoc.
Qed.

(** X22: given only existing files, none of which starts with a dash,
    with no combined.pdf there, all-pages sets iterated in ascending
    order and a library that hands out every page in range, main writes
    to combined.pdf the documents one after the other, in the order of
    the command line. *)
Theorem main_merges_plain_files files docs :
  files ≠ [] →
  Forall (λ f, Str.startswith_dash f = false) files →
  Forall (λ f, path_isfile f = true) files →
  path_exists "combined.pdf" = false →
  Forall2 (λ f reader,
             PdfReader f = Ok reader
             ∧ set_iter (set_range 0 (Z.of_nat (length reader)))
               = seqZ 0 (Z.of_nat (length reader))
             ∧ ∀ (i : nat) p, reader !! i = Some p →
                              pages_getitem reader (Z.of_nat i) = Ok p)
          files docs →
  main files
  = (EvExists "combined.pdf" :: (EvIsFile <$> files) ++ (EvRead <$> files)
       ++ [EvWrite "combined.pdf" (concat docs); EvPrint (MsgSaved "combined.pdf")],
     Returned).
Proof.
  intros Hne Hplain Hfiles Hexists Hdocs.
  assert (Hflag : ∀ x, Str.startswith_dash x = true → x ∉ files).
  { intros x Hx Hin. eapply Forall_forall in Hplain; [|exact Hin]. congruence. }
  rewrite main_grouping by (try done; by apply Hflag).
  rewrite parse_operations_no_flags by done. rewrite app_nil_l.
  by rewrite (combine_new_operations files docs).
Qed.

Lemma apply_flag_Stop operation cmd value t x :
  apply_flag operation cmd value = (t, Stop x) →
  x = Uncaught (NameError "current")
  ∨ (Str.int_opt value = None ∧ x = Uncaught (ValueError (InvalidLiteral value))).
Proof.
  unfold apply_flag.
  repeat match goal with |- context [if ?b then _ else _] => destruct b end;
    try discriminate.
  - rewrite eff_bind_call. unfold Str.int.
    destruct (Str.int_opt value); [discriminate|]. intros [= <- <-]. by right.
  - intros [= <- <-]. by left.
Qed.

Lemma parse_flags_stops {A} (after : Operation → list string → M A) operation queue :
  (∃ x, parse_flags after operation queue = ([], Stop x)
        ∧ (x = Uncaught (NameError "current")
           ∨ x = Uncaught (IndexError "pop from an empty deque")
           ∨ ∃ v, v ∈ queue ∧ Str.int_opt v = None
                  ∧ x = Uncaught (ValueError (InvalidLiteral v))))
  ∨ (∃ operation' queue', queue' `suffix_of` queue
       ∧ parse_flags after operation queue = after operation' queue').
Proof.
  remember (length queue) as n eqn:Hn.
  assert (Hle : (length queue ≤ n)%nat) by lia. clear Hn.
  revert operation queue Hle.
  induction n as [n IH] using lt_wf_ind. intros operation queue Hle.
  destruct queue as [|cmd [|value queue2]]; simpl.
  - right. by exists operation, [].
  - destruct (Str.startswith_dash cmd).
    + left. eexists. split; [done|]. right. by left.
    + right. by exists operation, [cmd].
  - destruct (Str.startswith_dash cmd).
    + pose proof (apply_flag_trace operation cmd value) as Htrace.
      destruct (apply_flag operation cmd value) as [t [operation'|x]] eqn:Hflag;
        simpl in Htrace; subst t.
      * rewrite eff_bind_nil.
        destruct (IH (length queue2) ltac:(simpl in *; lia) operation' queue2
                    ltac:(lia))
          as [(x & Hstop & Hx)|(op2 & q2 & Hsuffix & Heq)].
        -- left. exists x. split; [done|].
           destruct Hx as [?|[?|(v & Hv & Hint & ?)]]; [by left|right; by left|].
           right. right. exists v. split; [by do 2 right|done].
        -- right. exists op2, q2. split; [by do 2 apply suffix_cons_r|done].
      * left. exists x. split; [done|].
        apply apply_flag_Stop in Hflag as [?|[Hint ?]]; [by left|].
        right. right. exists value. split; [right; left|done].
    + right. by exists operation, (cmd :: value :: queue2).
Qed.

(** X23: grouping stops in one of four ways only: it returns after the
    message that a token is not an existing file, printed right after
    the [isfile] test of that token; or it is left by the NameError of
    an unknown flag, by the IndexError of a flag without a value, or by
    the ValueError of an angle that is not an integer. *)
Theorem parse_operations_stops operations0 queue t x :
  parse_operations operations0 queue = (t, Stop x) →
  (x = Returned
   ∧ ∃ f t', t = t' ++ [EvIsFile f; EvPrint (MsgNoSuchFile f)]
             ∧ path_isfile f = false ∧ f ∈ queue)
  ∨ x = Uncaught (NameError "current")
  ∨ x = Uncaught (IndexError "pop from an empty deque")
  ∨ ∃ v, v ∈ queue ∧ Str.int_opt v = None
         ∧ x = Uncaught (ValueError (InvalidLiteral v)).
Proof.
  remember (length queue) as n eqn:Hn.
  assert (Hle : (length queue ≤ n)%nat) by lia. clear Hn.
  revert operations0 queue t Hle.
  induction n as [n IH] using lt_wf_ind. intros operations0 queue t Hle.
  destruct queue as [|last_file queue1]; [discriminate|].
  rewrite parse_operations_cons, os_path_isfile_bind.
  destruct (path_isfile last_file) eqn:Hisfile; cbn [negb].
  2:{ rewrite eff_bind_emit. intros [= <- <-]. left. split; [done|].
      exists last_file, []. split; [done|]. split; [done|left]. }
  destruct (parse_flags_stops
              (λ operation queue2, parse_operations (operations0 ++ [operation]) queue2)
              (new_operation last_file) queue1)
    as [(x' & -> & Hx)|(op' & q' & Hsuffix & ->)].
  - intros [= <- <-]. right.
    destruct Hx as [?|[?|(v & Hv & Hint & ?)]]; [by left|right; by left|].
    right. right. exists v. split; [by right|done].
  - destruct (parse_operations (operations0 ++ [op']) q') as [t' r] eqn:Hrest.
    intros [= <- ->].
    assert (Hq : ∀ y, y ∈ q' → y ∈ last_file :: queue1).
    { intros y Hy. right. destruct Hsuffix as [k ->]. apply elem_of_app. by right. }
    apply (IH (length q')) in Hrest
      as [(-> & f & t0 & -> & Hf & Hin)|[?|[?|(v & Hv & Hint & ?)]]].
    + left. split; [done|]. exists f, (EvIsFile last_file :: t0).
      split; [done|]. split; [done|by apply Hq].
    + right. by left.
    + right. right. by left.
    + right. right. right. exists v. split; [by apply Hq|done].
    + apply suffix_length in Hsuffix. simpl in *. lia.
    + lia.
Qed.

End MoreMainProperties.

(** ** Further runs on sample documents *)

Module MoreRuns.
Import Sample.

Lemma parse_operations_files_witness :
  ∃ new,
    [ {| filename := "a.pdf"; page_range := Some "1"; keep := true; angle := 0 |};
      new_operation "b.pdf" ] = [] ++ new
    ∧ Forall (λ op, @path_isfile (file_system two_files) (filename op) = true) new
    ∧ [EvIsFile "a.pdf"; EvIsFile "b.pdf"]
      = (λ op, @EvIsFile (@page (pdf_lib two_files)) (filename op)) <$> new
    ∧ (filename <$> new) `sublist_of` ["a.pdf"; "-k"; "1"; "b.pdf"].
Proof.
  apply (@parse_operations_files (pdf_lib two_files) (file_system two_files)
           [] ["a.pdf"; "-k"; "1"; "b.pdf"]).
  vm_compute. reflexivity.
Defined.

Lemma combine_extends_writer_witness :
  [(7, 0)] `prefix_of` [(7, 0); (3, 90)]
  ∧ [@EvRead (@page (pdf_lib two_files)) "a.pdf"]
    = (λ op, EvRead (filename op))
        <$> [ {| filename := "a.pdf"; page_range := Some "3"; keep := true; angle := 90 |} ].
Proof.
  apply (@combine_extends_writer slot_order (pdf_lib two_files)
           [ {| filename := "a.pdf"; page_range := Some "3"; keep := true; angle := 90 |} ]
           [(7, 0)]).
  vm_compute. reflexivity.
Defined.

Lemma main_never_overwrites_witness :
  run slot_order two_files ["a.pdf"; "-o"; "out.pdf"]
  = ([EvExists "out.pdf"; EvIsFile "a.pdf"; EvRead "a.pdf";
      EvWrite "out.pdf" [(1, 0); (2, 0); (3, 0)]; EvPrint (MsgSaved "out.pdf")],
     Returned)
  ∧ @path_exists (file_system two_files) "out.pdf" = false.
Proof.
  assert (Hrun : run slot_order two_files ["a.pdf"; "-o"; "out.pdf"]
                 = ([EvExists "out.pdf"; EvIsFile "a.pdf"; EvRead "a.pdf";
                     EvWrite "out.pdf" [(1, 0); (2, 0); (3, 0)];
                     EvPrint (MsgSaved "out.pdf")], Returned))
    by (vm_compute; reflexivity).
  split; [exact Hrun|].
  apply (@main_never_overwrites slot_order (pdf_lib two_files) (file_system two_files)
           ["a.pdf"; "-o"; "out.pdf"] "out.pdf" [(1, 0); (2, 0); (3, 0)]).
  unfold run in Hrun. rewrite Hrun. cbn. left.
Defined.

Lemma main_reads_only_grouped_files_witness :
  ∃ outfile args t0 operations,
    parse_output_file ["a.pdf"; "-o"; "out.pdf"] = Ok (outfile, args)
    ∧ @path_exists (file_system two_files) outfile = false
    ∧ @parse_operations (pdf_lib two_files) (file_system two_files) [] args
      = (t0, Next operations)
    ∧ "a.pdf" ∈ filename <$> operations
    ∧ @path_isfile (file_system two_files) "a.pdf" = true.
Proof.
  apply (@main_reads_only_grouped_files slot_order (pdf_lib two_files)
           (file_system two_files) ["a.pdf"; "-o"; "out.pdf"] "a.pdf").
  assert (Hrun : run slot_order two_files ["a.pdf"; "-o"; "out.pdf"]
                 = ([EvExists "out.pdf"; EvIsFile "a.pdf"; EvRead "a.pdf";
                     EvWrite "out.pdf" [(1, 0); (2, 0); (3, 0)];
                     EvPrint (MsgSaved "out.pdf")], Returned))
    by (vm_compute; reflexivity).
  unfold run in Hrun. rewrite Hrun. cbn [fst]. do 2 right. left.
Defined.

Lemma flag_without_value_IndexError_witness :
  run slot_order two_files ["a.pdf"; "-k"; "1"; "b.pdf"; "-o"; "out.pdf"; "-a"]
  = ([EvExists "out.pdf"; EvIsFile "a.pdf"; EvIsFile "b.pdf"],
     Uncaught (IndexError "pop from an empty deque")).
Proof.
  apply (@flag_without_value_IndexError slot_order (pdf_lib two_files)
           (file_system two_files)
           ["a.pdf"; "-k"; "1"; "b.pdf"; "-o"; "out.pdf"; "-a"]
           "out.pdf" ["a.pdf"; "-k"; "1"; "b.pdf"] "-a"
           [EvIsFile "a.pdf"; EvIsFile "b.pdf"]
           [ {| filename := "a.pdf"; page_range := Some "1"; keep := true; angle := 0 |};
             new_operation "b.pdf" ]).
  4: done.
  all: vm_compute; reflexivity.
Defined.

Lemma angle_not_an_integer_witness :
  run slot_order two_files ["a.pdf"; "--keep"; "1"; "--angle"; "ninety"; "b.pdf"]
  = ([EvExists "combined.pdf"; EvIsFile "a.pdf"],
     Uncaught (ValueError (InvalidLiteral "ninety"))).
Proof.
  apply (@angle_not_an_integer slot_order (pdf_lib two_files)
           (file_system two_files)
           ["a.pdf"; "--keep"; "1"; "--angle"; "ninety"; "b.pdf"]
           "combined.pdf" ["a.pdf"; "--keep"; "1"] "--angle" "ninety" ["b.pdf"]
           [EvIsFile "a.pdf"]
           [ {| filename := "a.pdf"; page_range := Some "1"; keep := true; angle := 0 |} ]).
  4: done.
  5: right; reflexivity.
  all: vm_compute; reflexivity.
Defined.


Lemma range_value_not_examined_witness :
  ∃ operations1 operation,
    [ {| filename := "a.pdf"; page_range := None; keep := true; angle := 90 |} ]
    = operations1 ++ [operation]
    ∧ ∀ value,
        @parse_operations (pdf_lib two_files) (file_system two_files) []
          (["a.pdf"; "-a"; "90"] ++ ["--remove"; value])
        = ([EvIsFile "a.pdf"],
           Next (operations1
                   ++ [ {| filename := filename operation;
                           page_range := Some value;
                           keep := bool_decide ("--remove" ∈ ["-k"; "--keep"]);
                           angle := angle operation |} ])).
Proof.
  apply (@range_value_not_examined (pdf_lib two_files) (file_system two_files)
           [] ["a.pdf"; "-a"; "90"]).
  - vm_compute. reflexivity.
  - done.
  - by_compute.
Defined.

Lemma later_keep_or_remove_wins_witness :
  @parse_flags (pdf_lib two_files) _ (λ operation queue, mret (operation, queue))
    (new_operation "a.pdf") ["--keep"; "1-2"; "-r"; "3"; "b.pdf"]
  = @parse_flags (pdf_lib two_files) _ (λ operation queue, mret (operation, queue))
      (new_operation "a.pdf") ["-r"; "3"; "b.pdf"].
Proof.
  apply (@later_keep_or_remove_wins (pdf_lib two_files)); by_compute.
Defined.

Lemma parse_operations_plain_files_witness :
  @parse_operations (pdf_lib two_files) (file_system two_files) [] ["a.pdf"; "b.pdf"]
  = (EvIsFile <$> ["a.pdf"; "b.pdf"],
     Next ([] ++ (new_operation <$> ["a.pdf"; "b.pdf"]))).
Proof.
  apply (@parse_operations_plain_files (pdf_lib two_files) (file_system two_files));
    by_compute.
Defined.

Lemma default_operation_appends_document_witness :
  @combine_step ascending_order (pdf_lib two_files) (new_operation "a.pdf") [(7, 0)]
  = ([EvRead "a.pdf"], Next ([(7, 0)] ++ document 3)).
Proof.
  apply (@default_operation_appends_document ascending_order (pdf_lib two_files)).
  - vm_compute. reflexivity.
  - vm_compute. reflexivity.
  - intros [|[|[|i]]] p; vm_compute; intros [= <-]; reflexivity.
Defined.

Lemma main_merges_plain_files_witness :
  run ascending_order two_files ["a.pdf"; "b.pdf"]
  = (EvExists "combined.pdf" :: (EvIsFile <$> ["a.pdf"; "b.pdf"])
       ++ (EvRead <$> ["a.pdf"; "b.pdf"])
       ++ [EvWrite "combined.pdf" (concat [document 3; document 3]);
           EvPrint (MsgSaved "combined.pdf")],
     Returned).
Proof.
  apply (@main_merges_plain_files ascending_order (pdf_lib two_files)
           (file_system two_files) ["a.pdf"; "b.pdf"] [document 3; document 3]).
  - done.
  - by_compute.
  - by_compute.
  - vm_compute. reflexivity.
  - repeat constructor; try (vm_compute; reflexivity);
      intros [|[|[|i]]] p; vm_compute; intros [= <-]; reflexivity.
Defined.

Lemma parse_operations_stops_witness :
  (Returned = Returned
   ∧ ∃ f t', [@EvIsFile (@page (pdf_lib two_files)) "a.pdf"; EvIsFile "c.pdf";
              EvPrint (MsgNoSuchFile "c.pdf")]
             = t' ++ [EvIsFile f; EvPrint (MsgNoSuchFile f)]
             ∧ @path_isfile (file_system two_files) f = false
             ∧ f ∈ ["a.pdf"; "-k"; "1"; "c.pdf"])
  ∨ Returned = Uncaught (NameError "current")
  ∨ Returned = Uncaught (IndexError "pop from an empty deque")
  ∨ ∃ v, v ∈ ["a.pdf"; "-k"; "1"; "c.pdf"] ∧ Str.int_opt v = None
         ∧ Returned = Uncaught (ValueError (InvalidLiteral v)).
Proof.
  apply (@parse_operations_stops (pdf_lib two_files) (file_system two_files)
           [] ["a.pdf"; "-k"; "1"; "c.pdf"]).
  vm_compute. reflexivity.
Defined.

End MoreRuns.
